(** * Pattern-based explanations of a linear text classifier

    A shallow embedding of the interpretability cells of
    [imdb-interpretability-data-preparation.ipynb]:

    <<
    labels_normalized = StandardScaler().fit_transform(predictions_proba)
    data_scaled = StandardScaler(with_mean=False).fit_transform(X_test)
    prediction_sign = -np.sign(predictions_proba.argmax(axis=1) - .5)
    pattern = labels_normalized[:,0].T @ data_scaled
    word_scores = sp.sparse.diags(prediction_sign) * ((data_scaled>0)*1.)
                  @ sp.sparse.diags(pattern)
    top_words = word_scores[idx,:].toarray().flatten()
                  .argsort()[-top_what:][::-1]
    >>

    Numbers are exact reals: rounding of IEEE doubles, NaN and Inf are
    outside the model.  A matrix is the list of its rows; a sparse matrix
    is modelled by its dense contents.  The calls into scikit-learn, numpy
    and scipy are modelled by what those libraries compute. *)

From Stdlib Require Import Reals Lra Lia List Bool Arith ZArith.
From Stdlib Require Import Permutation Sorted.
Import ListNotations.

Open Scope R_scope.

(** ** Exceptions *)

Inductive exn : Type :=
| ValueError   (* empty input of a scaler, dimension mismatch of a product *)
| IndexError.  (* row or column index out of bounds *)

Inductive result (A : Type) : Type :=
| Ok (a : A)
| Raise (e : exn).

Arguments Ok {A} a.
Arguments Raise {A} e.

Definition bind {A B : Type} (m : result A) (k : A -> result B) : result B :=
  match m with
  | Ok a => k a
  | Raise e => Raise e
  end.

Notation "x <- m ;; k" := (bind m (fun x => k))
  (at level 61, m at next level, right associativity).

(** ** Vectors and matrices *)

Definition vec := list R.
Definition matrix := list vec.

Definition nrows (M : matrix) : nat := length M.
Definition ncols (M : matrix) : nat := length (hd [] M).

(** [M[i, j]] *)
Definition entry (M : matrix) (i j : nat) : R := nth j (nth i M []) 0.

(** [M[:, j]] *)
Definition column (j : nat) (M : matrix) : vec := map (fun r => nth j r 0) M.

(** An ndarray is rectangular: every row has [d] entries. *)
Definition rect (d : nat) (M : matrix) : Prop := Forall (fun r => length r = d) M.

Definition sum (v : vec) : R := fold_right Rplus 0 v.

Definition dot (u v : vec) : R := sum (map (fun p => fst p * snd p) (combine u v)).

(** ** Column statistics of [StandardScaler]

    [mean_] and [var_] are the column means and the population variances
    (divisor [n], no Bessel correction).  [scale_] is [sqrt(var_)] where
    a zero is replaced by one ([_handle_zeros_in_scale]). *)

Definition mean (v : vec) : R := sum v / INR (length v).

Definition var (v : vec) : R := mean (map (fun x => (x - mean v) * (x - mean v)) v).

Definition handle_zeros_in_scale (s : R) : R :=
  if Req_dec_T s 0 then 1 else s.

Definition scale_of (v : vec) : R := handle_zeros_in_scale (sqrt (var v)).

Definition mean_ (X : matrix) : vec :=
  map (fun j => mean (column j X)) (seq 0 (ncols X)).

Definition scale_ (X : matrix) : vec :=
  map (fun j => scale_of (column j X)) (seq 0 (ncols X)).

(** [transform] of one row: subtract the mean when [with_mean], then
    divide by the scale. *)
Definition transform_row (with_mean : bool) (mu sc : vec) (r : vec) : vec :=
  map (fun j => (nth j r 0 - (if with_mean then nth j mu 0 else 0)) / nth j sc 1)
      (seq 0 (length r)).

(** [StandardScaler(with_mean=...).fit_transform(X)].  [check_array]
    rejects an array with no sample or no feature. *)
Definition fit_transform (with_mean : bool) (X : matrix) : result matrix :=
  if (nrows X =? 0)%nat || (ncols X =? 0)%nat then Raise ValueError
  else Ok (map (transform_row with_mean (mean_ X) (scale_ X)) X).

Definition labels_normalized (predictions_proba : matrix) : result matrix :=
  fit_transform true predictions_proba.

Definition data_scaled (X_test : matrix) : result matrix :=
  fit_transform false X_test.

(** ** Prediction sign

    [argmax] is the first index holding the maximum of the row; [np.sign]
    is [-1], [0] or [1]. *)

Fixpoint argmax_from (best : nat) (bv : R) (i : nat) (r : vec) : nat :=
  match r with
  | [] => best
  | x :: r' =>
      if Rlt_dec bv x then argmax_from i x (S i) r'
      else argmax_from best bv (S i) r'
  end.

Definition argmax (r : vec) : nat :=
  match r with
  | [] => 0%nat
  | x :: r' => argmax_from 0 x 1 r'
  end.

Definition sign (x : R) : R :=
  if Rlt_dec x 0 then -1 else if Rlt_dec 0 x then 1 else 0.

Definition prediction_sign (predictions_proba : matrix) : vec :=
  map (fun r => - sign (INR (argmax r) - / 2)) predictions_proba.

(** ** Pattern *)

(** [M[:, j]], with the bounds check of the index. *)
Definition getcol (j : nat) (M : matrix) : result vec :=
  if (j <? ncols M)%nat then Ok (column j M) else Raise IndexError.

(** [y @ D] for a one-dimensional [y]: entry [j] is the inner product of
    [y] with column [j] of [D]. *)
Definition vecmat (y : vec) (D : matrix) : result vec :=
  if (length y =? nrows D)%nat
  then Ok (map (fun j => dot y (column j D)) (seq 0 (ncols D)))
  else Raise ValueError.

(** [labels_normalized[:,c].T @ data_scaled]; the transpose of a
    one-dimensional array is the array itself. *)
Definition pattern_class (c : nat) (predictions_proba X_test : matrix) : result vec :=
  LN <- labels_normalized predictions_proba ;;
  DS <- data_scaled X_test ;;
  y <- getcol c LN ;;
  vecmat y DS.

(** The notebook computes the pattern of class [0], the negative
    sentiment class. *)
Definition pattern : matrix -> matrix -> result vec := pattern_class 0.

(** ** Word scores *)

(** [sp.sparse.diags(v)]: the square matrix with [v] on its diagonal. *)
Definition diags (v : vec) : matrix :=
  map (fun i => map (fun j => if (i =? j)%nat then nth i v 0 else 0)
                    (seq 0 (length v)))
      (seq 0 (length v)).

(** [(D > 0) * 1.] *)
Definition gt0 (D : matrix) : matrix :=
  map (map (fun x => if Rlt_dec 0 x then 1 else 0)) D.

(** Product of two matrices; for scipy's sparse matrices both [*] and [@]
    are this product. *)
Definition matmul (A B : matrix) : result matrix :=
  if (ncols A =? nrows B)%nat
  then Ok (map (fun r => map (fun j => dot r (column j B)) (seq 0 (ncols B))) A)
  else Raise ValueError.

(** [diags(s) * ((D>0)*1.) @ diags(p)]: [*] and [@] have the same
    precedence and associate to the left. *)
Definition word_scores_of (s : vec) (D : matrix) (p : vec) : result matrix :=
  A <- matmul (diags s) (gt0 D) ;;
  matmul A (diags p).

Definition word_scores (predictions_proba X_test : matrix) : result matrix :=
  DS <- data_scaled X_test ;;
  p <- pattern predictions_proba X_test ;;
  word_scores_of (prediction_sign predictions_proba) DS p.

(** ** Top words *)

(** [M[idx, :]] *)
Definition getrow (idx : nat) (M : matrix) : result vec :=
  match nth_error M idx with
  | Some r => Ok r
  | None => Raise IndexError
  end.

(** [v.argsort()] returns the indices of [v] in ascending order of value.
    numpy's default sort is not stable: which of two indices of equal
    value comes first depends on numpy's version and on the machine.  The
    function is therefore a parameter of the selection of the top words,
    and [is_argsort] is what numpy guarantees of it: a permutation of the
    indices along which the values ascend. *)
Definition is_argsort (argsort : vec -> list nat) : Prop :=
  forall v, Permutation (argsort v) (seq 0 (length v)) /\
            StronglySorted (fun a b => nth a v 0 <= nth b v 0) (argsort v).

(** One pass of an insertion sort of the indices: index [vi] enters the
    sorted prefix from its right end and moves left past every index
    whose value is strictly greater.  [rp] is the prefix read from right
    to left. *)
Fixpoint insert_back (v : vec) (vi : nat) (rp : list nat) : list nat :=
  match rp with
  | [] => [vi]
  | k :: rp' =>
      if Rlt_dec (nth vi v 0) (nth k v 0) then k :: insert_back v vi rp'
      else vi :: rp
  end.

(** The sorted prefix of the first [m] indices, read from right to left. *)
Definition sorted_back (v : vec) (m : nat) : list nat :=
  fold_left (fun rp vi => insert_back v vi rp) (seq 0 m) [].

(** One argsort among those [is_argsort] allows, the insertion sort,
    which leaves equal values in the order of their indices.  It serves
    to run the selection on concrete vectors; numpy's own order of equal
    values may be another. *)
Definition insertion_argsort (v : vec) : list nat := rev (sorted_back v (length v)).

(** Python's [l[start:]]: a negative [start] counts from the end, and an
    index outside the list is clamped. *)
Definition slice_from {A : Type} (start : Z) (l : list A) : list A :=
  let len := Z.of_nat (length l) in
  let b := if (start <? 0)%Z then Z.max (len + start) 0 else Z.min start len in
  skipn (Z.to_nat b) l.

Definition top_what : Z := 3%Z.

Section TopWords.

Variable argsort : vec -> list nat.

(** [v.argsort()[-k:][::-1]] on one relevance vector. *)
Definition top_k (v : vec) (k : Z) : list nat :=
  rev (slice_from (- k) (argsort v)).

(** [word_scores[idx,:].toarray().flatten().argsort()[-k:][::-1]] *)
Definition top_words (ws : matrix) (idx : nat) (k : Z) : result (list nat) :=
  row <- getrow idx ws ;;
  Ok (top_k row k).

End TopWords.

(** Number of non-zero entries of a row. *)
Definition nonzero_count (v : vec) : nat :=
  length (filter (fun x => if Req_dec_T x 0 then false else true) v).

(** Standardization as the spec words it: subtract the mean, divide by
    the population standard deviation. *)
Definition standardize (v : vec) : vec :=
  map (fun x => (x - mean v) / sqrt (var v)) v.

(** Variance-only scaling as the spec words it: divide by the population
    standard deviation, no mean subtraction. *)
Definition scale_to_unit_variance (v : vec) : vec :=
  map (fun x => x / sqrt (var v)) v.

(** Number of indices that [l[-k:]] keeps of a list of [d] elements. *)
Definition top_count (k : Z) (d : nat) : nat :=
  if (0 <? k)%Z then Nat.min (Z.to_nat k) d else d - Nat.min (Z.to_nat (- k)) d.

(** [before v a b]: index [a] comes before index [b] when the order of
    [insertion_argsort] is read backwards: by larger value, and among
    equal values by larger index. *)
Definition before (v : vec) (a b : nat) : Prop :=
  nth b v 0 < nth a v 0 \/ (nth b v 0 = nth a v 0 /\ (b < a)%nat).

(** Presence of a term in a document, read off the raw TF-IDF matrix:
    [1] where the value is non-zero. *)
Definition presence (X : matrix) : matrix :=
  map (map (fun x => if Req_dec_T x 0 then 0 else 1)) X.

Definition nonneg (X : matrix) : Prop := Forall (Forall (fun x => 0 <= x)) X.

(** ** A small run: two documents, two classes, three terms *)

Definition predictions_example : matrix := [[0.9; 0.1]; [0.2; 0.8]].
Definition features_example : matrix := [[1; 0; 3]; [0; 2; 3]].

(** The relevance vector [{1: 0.9, 2: 0.5, 5: 0.5}] over six terms. *)
Definition relevance_example : vec := [0; 0.9; 0.5; 0; 0; 0.5].

(** The relevance vector of a document with a single scored term. *)
Definition single_term_row : vec := [0; 0.5; 0].

(** ** Further cells of the notebook *)

(** [r.max()]: the maximum of a row; numpy raises on an empty row. *)
Definition amax (r : vec) : result R :=
  match r with
  | [] => Raise ValueError
  | x :: r' => Ok (fold_left Rmax r' x)
  end.

(** Application of a fallible function to every element, left to right:
    the first exception ends the loop. *)
Fixpoint mapM {A B : Type} (f : A -> result B) (l : list A) : result (list B) :=
  match l with
  | [] => Ok []
  | a :: l' => b <- f a ;; bs <- mapM f l' ;; Ok (b :: bs)
  end.

(** [test_df['prediction_proba_max'] = predictions_proba.max(axis=1)] *)
Definition prediction_proba_max (predictions_proba : matrix) : result vec :=
  mapM amax predictions_proba.

(** ** The vocabulary

    A Python dict with integer keys is the list of its items in insertion
    order, with distinct keys.  Words are of any type [W]. *)

Section Vocabulary.

Variable W : Type.

Definition dict : Type := list (nat * W).

(** [d[k] = v]: an existing key keeps its place and takes the new
    value, a new key goes to the end. *)
Fixpoint dict_set (k : nat) (v : W) (d : dict) : dict :=
  match d with
  | [] => [(k, v)]
  | (k', v') :: d' =>
      if (k' =? k)%nat then (k, v) :: d' else (k', v') :: dict_set k v d'
  end.

(** [d[k]]; [None] stands for [KeyError]. *)
Fixpoint dict_get (k : nat) (d : dict) : option W :=
  match d with
  | [] => None
  | (k', v') :: d' => if (k' =? k)%nat then Some v' else dict_get k d'
  end.

(** [{idx: word for word, idx in vect.vocabulary_.items()}] *)
Definition idx2word (vocabulary_ : list (W * nat)) : dict :=
  fold_left (fun d wi => dict_set (snd wi) (fst wi) d) vocabulary_ [].

(** The word that the last item of the vocabulary with index [i]
    binds to [i]. *)
Fixpoint last_word (i : nat) (vocabulary_ : list (W * nat)) : option W :=
  match vocabulary_ with
  | [] => None
  | (w, j) :: voc' =>
      match last_word i voc' with
      | Some w' => Some w'
      | None => if (j =? i)%nat then Some w else None
      end
  end.

(** [[idx2word[idx] for idx in idxs]]: the first missing key ends the
    comprehension with [KeyError]. *)
Fixpoint lookup_all (d : dict) (idxs : list nat) : option (list W) :=
  match idxs with
  | [] => Some []
  | i :: idxs' =>
      match dict_get i d with
      | None => None
      | Some w =>
          match lookup_all d idxs' with
          | None => None
          | Some ws => Some (w :: ws)
          end
      end
  end.

(** [[idx2word[idx] for idx in pattern.argsort()[-k:][::-1]]]; the
    notebook prints it for [k = 5], and computes it per document for
    [k = top_what]. *)
Definition top_k_words (argsort : vec -> list nat) (d : dict) (v : vec) (k : Z)
  : option (list W) :=
  lookup_all d (top_k argsort v k).

End Vocabulary.

Arguments dict_set {W} k v d.
Arguments dict_get {W} k d.
Arguments idx2word {W} vocabulary_.
Arguments last_word {W} i vocabulary_.
Arguments lookup_all {W} d idxs.
Arguments top_k_words {W} argsort d v k.

(** ** Highlighting the top words

    <<
    for word in words:
        sentence_covar = re.sub(r'\b{}\b'.format(word),
                                '<mark>{}</mark>'.format(word),
                                sentence_covar, flags=re.IGNORECASE)
    n_words_highlighted = len(re.findall('<mark>', sentence_covar))
    >>

    A string is the list of its code points.  The two Unicode tables the
    regular expression consults are parameters: [is_word] is the class
    [\w], and [ieq c x] tells whether the pattern character [c] matches
    the text character [x] when case is ignored.  A word of the
    vocabulary is a token of the vectorizer, made of [\w] characters
    only, so that the pattern is the literal word between two [\b]. *)

Definition char : Type := nat.
Definition str : Type := list char.

(** ["<mark>"] and ["</mark>"] *)
Definition mark_open : str := [60; 109; 97; 114; 107; 62]%nat.
Definition mark_close : str := [60; 47; 109; 97; 114; 107; 62]%nat.

Section Highlight.

Variable is_word : char -> bool.
Variable ieq : char -> char -> bool.

(** Whether the character on one side of a position is a word
    character; there is none beyond the ends of the text. *)
Definition wordb (c : option char) : bool :=
  match c with
  | Some x => is_word x
  | None => false
  end.

(** [\b]: exactly one of the two neighbours is a word character. *)
Definition boundary (prev next : option char) : bool :=
  negb (Bool.eqb (wordb prev) (wordb next)).

(** The literal [w] at the head of [t], ignoring case: the last
    character consumed (or [prev]) and the rest of the text. *)
Fixpoint match_lit (w t : str) (prev : option char) : option (option char * str) :=
  match w with
  | [] => Some (prev, t)
  | c :: w' =>
      match t with
      | [] => None
      | x :: t' => if ieq c x then match_lit w' t' (Some x) else None
      end
  end.

(** Whether [\bw\b] matches at the head of [t], [prev] being the
    character before it. *)
Definition match_at (w : str) (prev : option char) (t : str) : bool :=
  boundary prev (hd_error t) &&
  match match_lit w t prev with
  | Some (last, rest) => boundary last (hd_error rest)
  | None => false
  end.

(** [re.sub] from left to right: [skip] characters of the text still
    belong to the match just replaced; elsewhere a match at the current
    position is replaced by [repl], and a character that starts no
    match is copied.  (A match of the empty word consumes nothing: the
    character after it is copied.) *)
Fixpoint sub_scan (w repl : str) (prev : option char) (skip : nat) (t : str) : str :=
  match t with
  | [] =>
      match skip with
      | O => if match_at w prev [] then repl else []
      | S _ => []
      end
  | x :: t' =>
      match skip with
      | S n => sub_scan w repl (Some x) n t'
      | O =>
          if match_at w prev t then
            match length w with
            | O => repl ++ x :: sub_scan w repl (Some x) 0 t'
            | S n => repl ++ sub_scan w repl (Some x) n t'
            end
          else x :: sub_scan w repl (Some x) 0 t'
      end
  end.

(** [re.sub(r'\b{}\b'.format(word), '<mark>{}</mark>'.format(word),
    sentence, flags=re.IGNORECASE)] *)
Definition highlight_word (word sentence : str) : str :=
  sub_scan word (mark_open ++ word ++ mark_close) None 0 sentence.

(** The loop over the top words of a document. *)
Definition highlight (words : list str) (sentence : str) : str :=
  fold_left (fun s word => highlight_word word s) words sentence.

(** Case variants of word characters are word characters; the ASCII
    tables below have this property. *)
Definition case_closed : Prop :=
  forall c x, is_word c = true -> ieq c x = true -> is_word x = true.

(** Every text character that a character of [w] matches when case is
    ignored is a word character. *)
Definition matches_word_chars (w : str) : Prop :=
  Forall (fun c => forall x, ieq c x = true -> is_word x = true) w.

(** Equality of two strings ignoring case, character by character. *)
Fixpoint ieq_str (w t : str) : bool :=
  match w, t with
  | [], [] => true
  | c :: w', x :: t' => ieq c x && ieq_str w' t'
  | _, _ => false
  end.

End Highlight.

(** The last character of [m], or [prev] when [m] is empty. *)
Definition last_opt (prev : option char) (m : str) : option char :=
  fold_left (fun _ y => Some y) m prev.

(** Whether [lit] is a prefix of [t]. *)
Fixpoint prefixb (lit t : str) : bool :=
  match lit with
  | [] => true
  | c :: lit' =>
      match t with
      | [] => false
      | x :: t' => (c =? x)%nat && prefixb lit' t'
      end
  end.

(** [len(re.findall(lit, t))] for a non-empty literal [lit]: the
    occurrences from left to right, none overlapping the one before. *)
Fixpoint count_scan (lit : str) (skip : nat) (t : str) : nat :=
  match t with
  | [] => 0
  | x :: t' =>
      match skip with
      | S n => count_scan lit n t'
      | O =>
          if prefixb lit t then S (count_scan lit (length lit - 1) t')
          else count_scan lit 0 t'
      end
  end.

(** [len(re.findall('<mark>', sentence_covar))] *)
Definition n_words_highlighted (sentence : str) : nat :=
  count_scan mark_open 0 sentence.

(** The tables restricted to ASCII. *)
Definition ascii_is_word (c : char) : bool :=
  ((48 <=? c) && (c <=? 57) || (65 <=? c) && (c <=? 90)
   || (97 <=? c) && (c <=? 122) || (c =? 95))%nat.

Definition ascii_lower (c : char) : char :=
  if ((65 <=? c) && (c <=? 90))%nat then (c + 32)%nat else c.

Definition ascii_ieq (c x : char) : bool := (ascii_lower c =? ascii_lower x)%nat.

(** ["bad"], ["movie"], ["great"], ["Bad"] and a space. *)
Definition word_bad : str := [98; 97; 100]%nat.
Definition word_movie : str := [109; 111; 118; 105; 101]%nat.
Definition word_great : str := [103; 114; 101; 97; 116]%nat.
Definition text_Bad : str := [66; 97; 100]%nat.
Definition space : char := 32%nat.

(** A vocabulary over three terms. *)
Definition vocabulary_example : list (str * nat) :=
  [(word_bad, 0%nat); (word_great, 1%nat); (word_movie, 2%nat)].

(** ** File names of the corpus

    <<
    'movie_id': int(file.split("/")[-1].split("_")[0]),
    'rating': int(file.split("/")[-1].split('_')[1].split(".")[0]),
    >>
*)

(** [s.split(sep)] for a separator of one character: the pieces between
    the occurrences of [sep], at least one piece. *)
Fixpoint split_on (sep : char) (s : str) : list str :=
  match s with
  | [] => [[]]
  | x :: s' =>
      if (x =? sep)%nat then [] :: split_on sep s'
      else
        match split_on sep s' with
        | p :: ps => (x :: p) :: ps
        | [] => [[x]]
        end
  end.

(** ["/"], ["_"] and ["."] *)
Definition slash : char := 47%nat.
Definition underscore : char := 95%nat.
Definition dot_char : char := 46%nat.

(** [file.split("/")[-1]] *)
Definition base_name (file : str) : str := last (split_on slash file) [].

Section FileNames.

(** Python's [int] on a string. *)
Variable int : str -> result Z.

Definition movie_id (file : str) : result Z :=
  int (hd [] (split_on underscore (base_name file))).

Definition rating (file : str) : result Z :=
  match nth_error (split_on underscore (base_name file)) 1 with
  | None => Raise IndexError
  | Some piece => int (hd [] (split_on dot_char piece))
  end.

(** The two fields in the order the dict literal evaluates them: an
    exception of [movie_id] is raised before [rating] is looked at.
    (The file is read before both.) *)
Definition file_record (file : str) : result (Z * Z) :=
  m <- movie_id file ;;
  r <- rating file ;;
  Ok (m, r).

End FileNames.

(** A reading of unsigned decimal numbers, to instantiate [int] on file
    names made of digits. *)
Definition decimal (s : str) : result Z :=
  match s with
  | [] => Raise ValueError
  | _ =>
      fold_left
        (fun acc c =>
           n <- acc ;;
           if ((48 <=? c) && (c <=? 57))%nat
           then Ok (10 * n + Z.of_nat (c - 48))%Z
           else Raise ValueError)
        s (Ok 0%Z)
  end.

(** ["aclImdb/train/pos/12_9.txt"] *)
Definition file_example : str :=
  [97; 99; 108; 73; 109; 100; 98; 47; 116; 114; 97; 105; 110; 47; 112; 111; 115; 47;
   49; 50; 95; 57; 46; 116; 120; 116]%nat.

(** * Properties *)

(** ** Indexing *)

Lemma nth_map_in_range (A B : Type) (f : A -> B) (i : nat) (l : list A) (a : A) (b : B) :
  (i < length l)%nat -> nth i (map f l) b = f (nth i l a).
Proof.
  intros H. rewrite (nth_indep _ b (f a)) by (rewrite length_map; exact H).
  apply map_nth.
Qed.

Lemma nth_map_seq_gen (B : Type) (f : nat -> B) (d j : nat) (b : B) :
  (j < d)%nat -> nth j (map f (seq 0 d)) b = f j.
Proof.
  intros Hj. rewrite (nth_map_in_range _ _ f j _ 0%nat) by (rewrite length_seq; exact Hj).
  rewrite seq_nth by exact Hj. reflexivity.
Qed.

Lemma nth_map_seq (f : nat -> R) (d j : nat) (x : R) :
  (j < d)%nat -> nth j (map f (seq 0 d)) x = f j.
Proof. apply nth_map_seq_gen. Qed.

Lemma column_length (j : nat) (M : matrix) : length (column j M) = length M.
Proof. apply length_map. Qed.

Lemma column_map (g : vec -> vec) (j : nat) (M : matrix) :
  column j (map g M) = map (fun r => nth j (g r) 0) M.
Proof. unfold column. rewrite map_map. reflexivity. Qed.

Lemma nth_column (j i : nat) (M : matrix) : nth i (column j M) 0 = entry M i j.
Proof.
  unfold entry, column. revert i.
  induction M as [|r M IH]; intros [|i]; simpl; auto; destruct j; reflexivity.
Qed.

Lemma rect_ncols (d : nat) (M : matrix) :
  rect d M -> M <> [] -> ncols M = d.
Proof.
  intros H Hne. destruct M as [|r M]; [congruence|].
  inversion H; subst. reflexivity.
Qed.

Lemma nth_transform_row (wm : bool) (mu sc r : vec) (j : nat) :
  (j < length r)%nat ->
  nth j (transform_row wm mu sc r) 0
  = (nth j r 0 - (if wm then nth j mu 0 else 0)) / nth j sc 1.
Proof. intros Hj. unfold transform_row. rewrite nth_map_seq by exact Hj. reflexivity. Qed.

Lemma transform_row_length (wm : bool) (mu sc r : vec) :
  length (transform_row wm mu sc r) = length r.
Proof. unfold transform_row. rewrite length_map, length_seq. reflexivity. Qed.

Lemma column_transform (wm : bool) (mu sc : vec) (d j : nat) (M : matrix) :
  rect d M -> (j < d)%nat ->
  column j (map (transform_row wm mu sc) M)
  = map (fun x => (x - (if wm then nth j mu 0 else 0)) / nth j sc 1) (column j M).
Proof.
  intros H Hj. rewrite column_map. unfold column. rewrite map_map.
  apply map_ext_in. intros r Hr.
  apply nth_transform_row.
  unfold rect in H. rewrite Forall_forall in H. rewrite (H r Hr). exact Hj.
Qed.

Lemma nth_mean_ (X : matrix) (j : nat) :
  (j < ncols X)%nat -> nth j (mean_ X) 0 = mean (column j X).
Proof. intros Hj. unfold mean_. apply nth_map_seq. exact Hj. Qed.

Lemma nth_scale_ (X : matrix) (j : nat) :
  (j < ncols X)%nat -> nth j (scale_ X) 1 = scale_of (column j X).
Proof. intros Hj. unfold scale_. apply nth_map_seq. exact Hj. Qed.

(** ** Sums, means and variances *)

Lemma sum_cons (x : R) (v : vec) : sum (x :: v) = x + sum v.
Proof. reflexivity. Qed.

Lemma sum_map_affine (a b : R) (v : vec) :
  sum (map (fun x => a * x + b) v) = a * sum v + b * INR (length v).
Proof.
  induction v as [|x v IH].
  - simpl. lra.
  - change (length (x :: v)) with (S (length v)). rewrite S_INR.
    cbn [map]. rewrite !sum_cons, IH. lra.
Qed.

Lemma INR_length_pos (v : vec) : v <> [] -> 0 < INR (length v).
Proof.
  intros H. destruct v as [|x v]; [congruence|].
  apply lt_0_INR. simpl. lia.
Qed.

Lemma mean_affine (a b : R) (v : vec) :
  v <> [] -> mean (map (fun x => a * x + b) v) = a * mean v + b.
Proof.
  intros H. unfold mean. rewrite sum_map_affine, length_map.
  pose proof (INR_length_pos v H). field. lra.
Qed.

Lemma sum_map_scal (a : R) (f : R -> R) (v : vec) :
  sum (map (fun x => a * f x) v) = a * sum (map f v).
Proof.
  induction v as [|x v IH]; [simpl; lra|].
  cbn [map]. rewrite !sum_cons, IH. lra.
Qed.

Lemma var_affine (a b : R) (v : vec) :
  v <> [] -> var (map (fun x => a * x + b) v) = a * a * var v.
Proof.
  intros H. unfold var at 1. rewrite mean_affine by exact H.
  rewrite map_map.
  rewrite (map_ext _ (fun x => (a * a) * ((x - mean v) * (x - mean v))))
    by (intros x; ring).
  unfold var. set (q := map (fun x => (x - mean v) * (x - mean v)) v).
  unfold mean at 1. rewrite sum_map_scal. fold q. rewrite length_map.
  unfold mean.
  replace (length q) with (length v) by (unfold q; now rewrite length_map).
  pose proof (INR_length_pos v H). field. lra.
Qed.

Lemma sum_sq_nonneg (m : R) (v : vec) :
  0 <= sum (map (fun x => (x - m) * (x - m)) v).
Proof.
  induction v as [|x v IH]; [simpl; lra|].
  cbn [map]. rewrite sum_cons.
  pose proof (Rle_0_sqr (x - m)) as Hs. unfold Rsqr in Hs. lra.
Qed.

Lemma var_nonneg (v : vec) : 0 <= var v.
Proof.
  unfold var, mean at 1. rewrite length_map.
  destruct v as [|x v].
  - simpl. unfold Rdiv. rewrite Rmult_0_l. lra.
  - apply Rmult_le_pos; [apply sum_sq_nonneg|].
    apply Rlt_le, Rinv_0_lt_compat, INR_length_pos. discriminate.
Qed.

Lemma sum_sq_zero (m : R) (v : vec) :
  sum (map (fun x => (x - m) * (x - m)) v) = 0 -> Forall (fun x => x = m) v.
Proof.
  induction v as [|x v IH]; [constructor|].
  cbn [map]. rewrite sum_cons. intros H.
  pose proof (sum_sq_nonneg m v) as Hv.
  pose proof (Rle_0_sqr (x - m)) as Hs. unfold Rsqr in Hs.
  constructor.
  - assert (Hx : (x - m) * (x - m) = 0) by lra.
    apply Rmult_integral in Hx. lra.
  - apply IH. lra.
Qed.

Lemma var_zero_const (v : vec) :
  v <> [] -> var v = 0 -> Forall (fun x => x = mean v) v.
Proof.
  intros Hne H. apply sum_sq_zero.
  unfold var, mean at 1 in H. rewrite length_map in H.
  pose proof (INR_length_pos v Hne) as Hp.
  unfold Rdiv in H. apply Rmult_integral in H. destruct H as [H|H]; [exact H|].
  pose proof (Rinv_0_lt_compat _ Hp). lra.
Qed.

Lemma scale_of_pos (v : vec) : 0 < scale_of v.
Proof.
  unfold scale_of, handle_zeros_in_scale.
  destruct (Req_dec_T (sqrt (var v)) 0) as [E|E]; [lra|].
  pose proof (sqrt_pos (var v)). lra.
Qed.

Lemma scale_of_var_zero (v : vec) : var v = 0 -> scale_of v = 1.
Proof.
  intros H. unfold scale_of, handle_zeros_in_scale. rewrite H, sqrt_0.
  destruct (Req_dec_T 0 0); [reflexivity|congruence].
Qed.

Lemma scale_of_sqr (v : vec) : var v <> 0 -> scale_of v * scale_of v = var v.
Proof.
  intros H. pose proof (var_nonneg v) as Hn.
  unfold scale_of, handle_zeros_in_scale.
  destruct (Req_dec_T (sqrt (var v)) 0) as [E|E].
  - apply sqrt_eq_0 in E; [congruence|exact Hn].
  - apply sqrt_sqrt. exact Hn.
Qed.

Lemma scale_of_sqrt (v : vec) : var v <> 0 -> scale_of v = sqrt (var v).
Proof.
  intros H. pose proof (var_nonneg v) as Hn.
  unfold scale_of, handle_zeros_in_scale.
  destruct (Req_dec_T (sqrt (var v)) 0) as [E|E]; [|reflexivity].
  apply sqrt_eq_0 in E; [congruence|exact Hn].
Qed.

Lemma mean_centered (m s : R) (v : vec) :
  v <> [] -> s <> 0 -> mean (map (fun x => (x - m) / s) v) = (mean v - m) / s.
Proof.
  intros Hne Hs.
  rewrite (map_ext _ (fun x => / s * x + - m / s)) by (intros x; field; exact Hs).
  rewrite mean_affine by exact Hne. field. exact Hs.
Qed.

Lemma var_centered (m s : R) (v : vec) :
  v <> [] -> s <> 0 -> var (map (fun x => (x - m) / s) v) = var v / (s * s).
Proof.
  intros Hne Hs.
  rewrite (map_ext _ (fun x => / s * x + - m / s)) by (intros x; field; exact Hs).
  rewrite var_affine by exact Hne. field. exact Hs.
Qed.

(** ** The scaler *)

Lemma nonempty_nrows (M : matrix) : M <> [] -> (nrows M =? 0)%nat = false.
Proof. intros H. destruct M; [congruence|reflexivity]. Qed.

Lemma map_rect (d : nat) (g : vec -> vec) (M : matrix) :
  (forall r, length (g r) = length r) -> rect d M -> rect d (map g M).
Proof.
  intros Hg H. unfold rect in *. rewrite Forall_forall in *.
  intros r Hr. apply in_map_iff in Hr. destruct Hr as (r0 & <- & Hr0).
  rewrite Hg. apply H. exact Hr0.
Qed.

(** On a non-empty array with at least one feature the scaler returns,
    keeps the shape, and transforms every column by its own statistics. *)
Lemma fit_transform_spec (wm : bool) (d : nat) (X : matrix) :
  rect d X -> X <> [] -> (1 <= d)%nat ->
  exists Y, fit_transform wm X = Ok Y /\ rect d Y /\ length Y = length X /\
    forall j, (j < d)%nat ->
      column j Y
      = map (fun x => (x - (if wm then mean (column j X) else 0)) / scale_of (column j X))
            (column j X).
Proof.
  intros Hr Hne Hd.
  pose proof (rect_ncols d X Hr Hne) as Hc.
  exists (map (transform_row wm (mean_ X) (scale_ X)) X).
  split; [|split; [|split]].
  - unfold fit_transform. rewrite nonempty_nrows by exact Hne. rewrite Hc.
    destruct d; [lia|reflexivity].
  - apply map_rect; [apply transform_row_length|exact Hr].
  - apply length_map.
  - intros j Hj. rewrite (column_transform wm _ _ d) by assumption.
    rewrite nth_scale_ by lia.
    destruct wm; [rewrite nth_mean_ by lia|]; reflexivity.
Qed.

Lemma fit_transform_inv (wm : bool) (X Y : matrix) :
  fit_transform wm X = Ok Y -> X <> [] /\ (1 <= ncols X)%nat.
Proof.
  unfold fit_transform. intros H.
  destruct (nrows X =? 0)%nat eqn:En; [discriminate|].
  destruct (ncols X =? 0)%nat eqn:Ec; [discriminate|].
  apply Nat.eqb_neq in En, Ec. split; [|lia].
  intros ->. apply En. reflexivity.
Qed.

Lemma column_nonempty (j : nat) (M : matrix) : M <> [] -> column j M <> [].
Proof. intros H. destruct M; [congruence|discriminate]. Qed.

Lemma Forall_map_const (f : R -> R) (c : R) (v : vec) :
  Forall (fun x => f x = c) v -> map f v = repeat c (length v).
Proof.
  induction 1 as [|x v Hx _ IH]; [reflexivity|].
  cbn [map length repeat]. rewrite Hx, IH. reflexivity.
Qed.

Lemma sum_repeat_0 (n : nat) : sum (repeat 0 n) = 0.
Proof. induction n as [|n IH]; [reflexivity|]. cbn [repeat]. rewrite sum_cons, IH. lra. Qed.

Lemma var_repeat_0 (n : nat) : var (repeat 0 n) = 0.
Proof.
  unfold var.
  assert (Hm : mean (repeat 0 n) = 0).
  { unfold mean. rewrite sum_repeat_0. unfold Rdiv. apply Rmult_0_l. }
  rewrite Hm.
  rewrite (Forall_map_const _ 0).
  - rewrite repeat_length. exact Hm.
  - apply Forall_forall. intros x Hx. apply repeat_spec in Hx. subst. lra.
Qed.

Lemma standardized_column (v : vec) :
  v <> [] ->
  let z := map (fun x => (x - mean v) / scale_of v) v in
  mean z = 0 /\
  (var v <> 0 -> z = standardize v /\ var z = 1) /\
  (var v = 0 -> z = repeat 0 (length v)).
Proof.
  intros Hne z. pose proof (scale_of_pos v) as Hs.
  split; [|split].
  - unfold z. rewrite mean_centered by (auto; lra). unfold Rdiv. ring.
  - intros Hv. split.
    + unfold z, standardize. rewrite scale_of_sqrt by exact Hv. reflexivity.
    + unfold z. rewrite var_centered by (auto; lra).
      rewrite scale_of_sqr by exact Hv. field. exact Hv.
  - intros Hv. unfold z. apply Forall_map_const.
    eapply Forall_impl; [|apply var_zero_const; assumption].
    intros x ->. unfold Rdiv. ring.
Qed.

Lemma unit_scaled_column (v : vec) :
  v <> [] ->
  let z := map (fun x => (x - 0) / scale_of v) v in
  (var v <> 0 -> z = scale_to_unit_variance v /\ var z = 1) /\
  (var v = 0 -> z = v).
Proof.
  intros Hne z. pose proof (scale_of_pos v) as Hs.
  split.
  - intros Hv. split.
    + unfold z, scale_to_unit_variance. rewrite scale_of_sqrt by exact Hv.
      apply map_ext. intros x. rewrite Rminus_0_r. reflexivity.
    + unfold z. rewrite var_centered by (auto; lra).
      rewrite scale_of_sqr by exact Hv. field. exact Hv.
  - intros Hv. unfold z. rewrite scale_of_var_zero by exact Hv.
    rewrite <- (map_id v) at 2. apply map_ext. intros x. field.
Qed.

Lemma nth_map_default (f : R -> R) (i : nat) (l : vec) (a b : R) :
  f a = b -> nth i (map f l) b = f (nth i l a).
Proof. intros <-. apply map_nth. Qed.

Lemma entry_scaled_zero (s : R) (i j : nat) (X Y : matrix) :
  column j Y = map (fun x => (x - 0) / s) (column j X) ->
  entry X i j = 0 -> entry Y i j = 0.
Proof.
  intros Hc Hx. rewrite <- nth_column in *. rewrite Hc.
  rewrite (nth_map_default _ i _ 0 0) by (unfold Rdiv; ring).
  rewrite Hx. unfold Rdiv. ring.
Qed.

(** C2, amended: both scalers return; every standardized prediction
    column has mean 0; a prediction column of non-zero variance is
    z-scored and gets population variance 1, one of zero variance becomes
    all zeros; a feature column of non-zero variance is divided by its
    standard deviation only and gets variance 1, one of zero variance is
    left as it is; zero feature entries stay zero. *)
Theorem scaling_asymmetric (k d : nat) (P X : matrix) :
  rect k P -> P <> [] -> (1 <= k)%nat ->
  rect d X -> X <> [] -> (1 <= d)%nat ->
  exists LN DS,
    labels_normalized P = Ok LN /\ data_scaled X = Ok DS /\
    (forall c, (c < k)%nat ->
       mean (column c LN) = 0 /\
       (var (column c P) <> 0 ->
          column c LN = standardize (column c P) /\ var (column c LN) = 1) /\
       (var (column c P) = 0 -> column c LN = repeat 0 (length P))) /\
    (forall j, (j < d)%nat ->
       (var (column j X) <> 0 ->
          column j DS = scale_to_unit_variance (column j X) /\ var (column j DS) = 1) /\
       (var (column j X) = 0 -> column j DS = column j X) /\
       (forall i, entry X i j = 0 -> entry DS i j = 0)).
Proof.
  intros HrP HP Hk HrX HX Hd.
  destruct (fit_transform_spec true k P HrP HP Hk) as (LN & HLN & _ & _ & HcP).
  destruct (fit_transform_spec false d X HrX HX Hd) as (DS & HDS & _ & _ & HcX).
  exists LN, DS. split; [exact HLN|]. split; [exact HDS|]. split.
  - intros c Hc. rewrite (HcP c Hc).
    rewrite <- (column_length c P).
    apply standardized_column, column_nonempty, HP.
  - intros j Hj. rewrite (HcX j Hj).
    destruct (unit_scaled_column (column j X) (column_nonempty j X HX)) as [H1 H2].
    split; [exact H1|]. split; [exact H2|].
    intros i. apply (entry_scaled_zero (scale_of (column j X))).
    apply HcX. exact Hj.
Qed.

Lemma var_const (c : R) (v : vec) : v <> [] -> Forall (fun x => x = c) v -> var v = 0.
Proof.
  intros Hne H.
  assert (Hm : mean v = c).
  { unfold mean. pose proof (INR_length_pos v Hne) as Hp.
    assert (Hs : sum v = c * INR (length v)).
    { clear Hne Hp. induction H as [|x v Hx _ IH]; [simpl; ring|].
      change (length (x :: v)) with (S (length v)).
      rewrite S_INR, sum_cons, IH, Hx. ring. }
    rewrite Hs. field. lra. }
  unfold var. rewrite Hm.
  rewrite (Forall_map_const _ 0).
  - unfold mean. rewrite sum_repeat_0. unfold Rdiv. ring.
  - eapply Forall_impl; [|exact H]. intros x ->. ring.
Qed.

Lemma scale_of_eq (v : vec) (s : R) : 0 < s -> var v = s * s -> scale_of v = s.
Proof.
  intros Hs Hv.
  assert (Hq : sqrt (var v) = s).
  { apply sqrt_lem_1; [apply var_nonneg|lra|symmetry; exact Hv]. }
  unfold scale_of, handle_zeros_in_scale. rewrite Hq.
  destruct (Req_dec_T s 0); [lra|reflexivity].
Qed.

(** Evaluation of the statistics of a concrete column. *)
Ltac stat_const c :=
  first [ apply (var_const c); [discriminate|repeat constructor; lra]
        | apply scale_of_var_zero, (var_const c); [discriminate|repeat constructor; lra] ].

Ltac eval_scaler :=
  unfold labels_normalized, data_scaled, fit_transform;
  cbn [nrows ncols length hd Nat.eqb orb];
  unfold mean_, scale_;
  cbn [ncols hd length seq map column nth transform_row].

(** C2 as stated fails on a constant column: the prediction matrix whose
    first class always has probability one, and a term that occurs in no
    document, keep variance zero after scaling. *)
Lemma scaling_zero_variance_counterexample :
  labels_normalized [[1; 0]; [1; 0]; [1; 0]] = Ok [[0; 0]; [0; 0]; [0; 0]] /\
  var (column 0 [[0; 0]; [0; 0]; [0; 0]]) <> 1 /\
  data_scaled [[1; 0]; [0; 0]] = Ok [[2; 0]; [0; 0]] /\
  var (column 1 [[2; 0]; [0; 0]]) <> 1.
Proof.
  assert (V0 : forall n, var (repeat 0 n) <> 1) by (intros n; rewrite var_repeat_0; lra).
  split; [|split; [apply (V0 3%nat)|split; [|apply (V0 2%nat)]]].
  - eval_scaler.
    assert (S1 : scale_of [1; 1; 1] = 1) by stat_const 1.
    assert (S0 : scale_of [0; 0; 0] = 1) by stat_const 0.
    assert (M1 : mean [1; 1; 1] = 1) by (unfold mean; simpl; lra).
    assert (M0 : mean [0; 0; 0] = 0) by (unfold mean; simpl; lra).
    rewrite S1, S0, M1, M0.
    repeat f_equal; lra.
  - eval_scaler.
    assert (S1 : scale_of [1; 0] = / 2).
    { apply scale_of_eq; [lra|]. unfold var, mean. simpl. lra. }
    assert (S0 : scale_of [0; 0] = 1) by stat_const 0.
    rewrite S1, S0. repeat f_equal; lra.
Qed.

(** The scaling theorem on the small run. *)
Lemma scaling_asymmetric_witness :
  exists LN DS,
    labels_normalized predictions_example = Ok LN /\
    data_scaled features_example = Ok DS /\
    (forall c, (c < 2)%nat ->
       mean (column c LN) = 0 /\
       (var (column c predictions_example) <> 0 ->
          column c LN = standardize (column c predictions_example) /\
          var (column c LN) = 1) /\
       (var (column c predictions_example) = 0 ->
          column c LN = repeat 0 (length predictions_example))) /\
    (forall j, (j < 3)%nat ->
       (var (column j features_example) <> 0 ->
          column j DS = scale_to_unit_variance (column j features_example) /\
          var (column j DS) = 1) /\
       (var (column j features_example) = 0 ->
          column j DS = column j features_example) /\
       (forall i, entry features_example i j = 0 -> entry DS i j = 0)).
Proof.
  apply (scaling_asymmetric 2 3 predictions_example features_example).
  - repeat constructor.
  - discriminate.
  - lia.
  - repeat constructor.
  - discriminate.
  - lia.
Defined.

(** ** Pattern *)

Lemma sum_Permutation (u v : vec) : Permutation u v -> sum u = sum v.
Proof.
  induction 1 as [|x u v _ IH|x y u|u v w _ IH1 _ IH2].
  - reflexivity.
  - rewrite !sum_cons, IH. reflexivity.
  - rewrite !sum_cons. ring.
  - rewrite IH1. exact IH2.
Qed.

Lemma mean_Permutation (u v : vec) : Permutation u v -> mean u = mean v.
Proof.
  intros H. unfold mean.
  rewrite (sum_Permutation u v H), (Permutation_length H). reflexivity.
Qed.

Lemma var_Permutation (u v : vec) : Permutation u v -> var u = var v.
Proof.
  intros H. unfold var. rewrite (mean_Permutation u v H).
  apply mean_Permutation, Permutation_map, H.
Qed.

Lemma scale_of_Permutation (u v : vec) : Permutation u v -> scale_of u = scale_of v.
Proof. intros H. unfold scale_of. rewrite (var_Permutation u v H). reflexivity. Qed.

Lemma dot_cons (x y : R) (u v : vec) : dot (x :: u) (y :: v) = x * y + dot u v.
Proof. reflexivity. Qed.

Lemma dot_columns (f g : R -> R) (c j : nat) (P X : matrix) :
  dot (map f (column c P)) (map g (column j X))
  = sum (map (fun pr => f (nth c (fst pr) 0) * g (nth j (snd pr) 0)) (combine P X)).
Proof.
  revert X. induction P as [|r P IH]; intros [|r' X]; try reflexivity.
  cbn [column map combine fst snd]. rewrite dot_cons, sum_cons.
  f_equal. apply IH.
Qed.

Lemma dot_index_sum (u v : vec) :
  length u = length v ->
  dot u v = sum (map (fun i => nth i u 0 * nth i v 0) (seq 0 (length u))).
Proof.
  revert v. induction u as [|x u IH]; intros [|y v] H; try discriminate; [reflexivity|].
  cbn [length seq map]. rewrite dot_cons, sum_cons. cbn [nth]. f_equal.
  rewrite <- seq_shift, map_map. cbn [nth]. apply IH.
  simpl in H. lia.
Qed.

Lemma dot_repeat_0 (n : nat) (v : vec) : dot (repeat 0 n) v = 0.
Proof.
  revert v. induction n as [|n IH]; intros [|y v]; try reflexivity.
  cbn [repeat]. rewrite dot_cons, IH. ring.
Qed.

Lemma map_const_repeat (f : nat -> R) (c : R) (l : list nat) :
  (forall j, In j l -> f j = c) -> map f l = repeat c (length l).
Proof.
  induction l as [|a l IH]; intros H; [reflexivity|].
  cbn [map length repeat]. rewrite H by (left; reflexivity).
  rewrite IH by (intros j Hj; apply H; right; exact Hj). reflexivity.
Qed.

Lemma length_nonempty (A : Type) (l l' : list A) :
  l <> [] -> length l' = length l -> l' <> [].
Proof. intros H E ->. destruct l; [congruence|discriminate]. Qed.

(** The pattern of class [c] is defined on arrays of matching shape, and
    is the list of inner products of the scaled columns. *)
Lemma pattern_class_ok (k d c : nat) (P X : matrix) :
  rect k P -> rect d X -> P <> [] -> length X = length P ->
  (c < k)%nat -> (1 <= d)%nat ->
  exists LN DS,
    labels_normalized P = Ok LN /\ data_scaled X = Ok DS /\
    length LN = length P /\ length DS = length X /\
    column c LN
    = map (fun x => (x - mean (column c P)) / scale_of (column c P)) (column c P) /\
    (forall j, (j < d)%nat ->
       column j DS = map (fun x => (x - 0) / scale_of (column j X)) (column j X)) /\
    pattern_class c P X
    = Ok (map (fun j => dot (column c LN) (column j DS)) (seq 0 d)).
Proof.
  intros HrP HrX HP Hlen Hc Hd.
  assert (HX : X <> []) by (eapply length_nonempty; eassumption).
  destruct (fit_transform_spec true k P HrP HP ltac:(lia)) as (LN & HLN & HrLN & HlLN & HcP).
  destruct (fit_transform_spec false d X HrX HX Hd) as (DS & HDS & HrDS & HlDS & HcX).
  exists LN, DS.
  repeat (split; [first [assumption | apply HcP; assumption]|]).
  unfold pattern_class, labels_normalized, data_scaled. rewrite HLN, HDS. cbn [bind].
  unfold getcol.
  rewrite (rect_ncols k LN HrLN) by (apply (length_nonempty _ P); assumption).
  apply Nat.ltb_lt in Hc. rewrite Hc. cbn [bind].
  unfold vecmat, nrows. rewrite column_length, HlLN, HlDS, Hlen, Nat.eqb_refl.
  rewrite (rect_ncols d DS HrDS) by (apply (length_nonempty _ X); assumption).
  reflexivity.
Qed.

(** C1: on arrays of matching shape the pattern of class [c] is returned,
    has one entry per vocabulary term, and entry [j] is the inner product
    over the documents of the standardized prediction column [c] with the
    variance-scaled feature column [j]; the notebook's [pattern] is the
    case [c = 0]. *)
Theorem pattern_is_projection (k d c : nat) (P X : matrix) :
  rect k P -> rect d X -> P <> [] -> length X = length P ->
  (c < k)%nat -> (1 <= d)%nat ->
  exists LN DS p,
    labels_normalized P = Ok LN /\ data_scaled X = Ok DS /\
    pattern_class c P X = Ok p /\ length p = d /\
    (forall j, (j < d)%nat ->
       nth j p 0 = sum (map (fun i => entry LN i c * entry DS i j) (seq 0 (length P)))) /\
    (forall i, (i < length P)%nat ->
       entry LN i c = (entry P i c - mean (column c P)) / scale_of (column c P)) /\
    (forall i j, (i < length P)%nat -> (j < d)%nat ->
       entry DS i j = entry X i j / scale_of (column j X)).
Proof.
  intros HrP HrX HP Hlen Hc Hd.
  destruct (pattern_class_ok k d c P X HrP HrX HP Hlen Hc Hd)
    as (LN & DS & HLN & HDS & HlLN & HlDS & HcP & HcX & Hp).
  exists LN, DS, (map (fun j => dot (column c LN) (column j DS)) (seq 0 d)).
  split; [exact HLN|]. split; [exact HDS|]. split; [exact Hp|].
  split; [rewrite length_map, length_seq; reflexivity|].
  split; [|split].
  - intros j Hj. rewrite nth_map_seq by exact Hj.
    rewrite dot_index_sum by (rewrite !column_length; lia).
    rewrite column_length, HlLN.
    apply f_equal, map_ext. intros i. rewrite !nth_column. reflexivity.
  - intros i Hi. rewrite <- !nth_column, HcP.
    rewrite (nth_map_in_range _ _ _ i _ 0) by (rewrite column_length; exact Hi).
    reflexivity.
  - intros i j Hi Hj. rewrite <- !nth_column, (HcX j Hj).
    rewrite (nth_map_in_range _ _ _ i _ 0) by (rewrite column_length; lia).
    rewrite Rminus_0_r. reflexivity.
Qed.

(** The projection theorem on the small run, for the class of the notebook. *)
Lemma pattern_is_projection_witness :
  exists LN DS p,
    labels_normalized predictions_example = Ok LN /\
    data_scaled features_example = Ok DS /\
    pattern_class 0 predictions_example features_example = Ok p /\
    length p = 3%nat /\
    (forall j, (j < 3)%nat ->
       nth j p 0
       = sum (map (fun i => entry LN i 0 * entry DS i j)
                  (seq 0 (length predictions_example)))) /\
    (forall i, (i < length predictions_example)%nat ->
       entry LN i 0
       = (entry predictions_example i 0 - mean (column 0 predictions_example))
         / scale_of (column 0 predictions_example)) /\
    (forall i j, (i < length predictions_example)%nat -> (j < 3)%nat ->
       entry DS i j
       = entry features_example i j / scale_of (column j features_example)).
Proof.
  apply (pattern_is_projection 2 3 0 predictions_example features_example).
  - repeat constructor.
  - repeat constructor.
  - discriminate.
  - reflexivity.
  - lia.
  - lia.
Defined.

(** A prediction column of zero variance gives the all-zero pattern. *)
Lemma pattern_class_zero_variance (k d c : nat) (P X : matrix) :
  rect k P -> rect d X -> P <> [] -> length X = length P ->
  (c < k)%nat -> (1 <= d)%nat ->
  var (column c P) = 0 ->
  pattern_class c P X = Ok (repeat 0 d).
Proof.
  intros HrP HrX HP Hlen Hc Hd Hv.
  destruct (pattern_class_ok k d c P X HrP HrX HP Hlen Hc Hd)
    as (LN & DS & _ & _ & _ & _ & HcP & _ & Hp).
  rewrite Hp. f_equal.
  destruct (standardized_column (column c P) (column_nonempty c P HP)) as (_ & _ & Hz).
  rewrite HcP, (Hz Hv).
  rewrite (map_const_repeat _ 0), length_seq; [reflexivity|].
  intros j _. apply dot_repeat_0.
Qed.

Lemma scale__pos (X : matrix) : Forall (fun s => 0 < s) (scale_ X).
Proof.
  unfold scale_. apply Forall_forall. intros s Hs.
  apply in_map_iff in Hs. destruct Hs as (j & <- & _). apply scale_of_pos.
Qed.

(** C5, amended: a prediction column of zero variance raises no error:
    its scale is replaced by one, the standardized column is all zeros
    and the pattern of that class is returned as the all-zero vector;
    every scale either scaler divides by is strictly positive. *)
Theorem zero_variance_pattern (k d c : nat) (P X : matrix) :
  rect k P -> rect d X -> P <> [] -> length X = length P ->
  (c < k)%nat -> (1 <= d)%nat ->
  var (column c P) = 0 ->
  pattern_class c P X = Ok (repeat 0 d) /\
  scale_of (column c P) = 1 /\
  Forall (fun s => 0 < s) (scale_ P) /\ Forall (fun s => 0 < s) (scale_ X).
Proof.
  intros HrP HrX HP Hlen Hc Hd Hv.
  split; [eapply pattern_class_zero_variance; eassumption|].
  split; [apply scale_of_var_zero; exact Hv|].
  split; apply scale__pos.
Qed.

(** The zero-variance theorem on the constant prediction matrix. *)
Lemma zero_variance_pattern_witness :
  pattern_class 0 [[1; 0]; [1; 0]; [1; 0]] [[1; 0]; [0; 1]; [1; 1]] = Ok (repeat 0 2) /\
  scale_of (column 0 [[1; 0]; [1; 0]; [1; 0]]) = 1 /\
  Forall (fun s => 0 < s) (scale_ [[1; 0]; [1; 0]; [1; 0]]) /\
  Forall (fun s => 0 < s) (scale_ [[1; 0]; [0; 1]; [1; 1]]).
Proof.
  apply (zero_variance_pattern 2 2 0 [[1; 0]; [1; 0]; [1; 0]] [[1; 0]; [0; 1]; [1; 1]]).
  - repeat constructor.
  - repeat constructor.
  - discriminate.
  - reflexivity.
  - lia.
  - lia.
  - apply (var_const 1); [discriminate|repeat constructor].
Defined.

(** C5 as stated fails: on the constant prediction matrix the notebook's
    [pattern] is returned, as the zero vector, and nothing is raised. *)
Lemma degenerate_column_counterexample :
  pattern [[1; 0]; [1; 0]; [1; 0]] [[1; 0]; [0; 1]; [1; 1]] = Ok [0; 0].
Proof.
  apply (pattern_class_zero_variance 2 2 0).
  - repeat constructor.
  - repeat constructor.
  - discriminate.
  - reflexivity.
  - lia.
  - lia.
  - apply (var_const 1); [discriminate|repeat constructor].
Qed.

(** ** Joint permutation of the documents *)

Lemma map_fst_combine (A B : Type) (l : list A) (l' : list B) :
  length l = length l' -> map fst (combine l l') = l.
Proof.
  revert l'. induction l as [|a l IH]; intros [|b l'] H; try discriminate; [reflexivity|].
  cbn [combine map fst]. f_equal. apply IH. simpl in H. lia.
Qed.

Lemma map_snd_combine (A B : Type) (l : list A) (l' : list B) :
  length l = length l' -> map snd (combine l l') = l'.
Proof.
  revert l'. induction l as [|a l IH]; intros [|b l'] H; try discriminate; [reflexivity|].
  cbn [combine map snd]. f_equal. apply IH. simpl in H. lia.
Qed.

Lemma rect_Permutation (d : nat) (M M' : matrix) :
  Permutation M M' -> rect d M -> rect d M'.
Proof. intros H. unfold rect. apply Permutation_Forall. exact H. Qed.

Lemma column_Permutation (j : nat) (M M' : matrix) :
  Permutation M M' -> Permutation (column j M) (column j M').
Proof. intros H. unfold column. apply Permutation_map. exact H. Qed.

(** C7: on arrays of matching shape the pattern of every class [c] is
    returned with one entry per vocabulary term, and permuting the
    documents of the prediction matrix and of the feature matrix by the
    same permutation returns the same pattern. *)
Theorem pattern_permutation_invariant (k d c : nat) (P X P' X' : matrix) :
  rect k P -> rect d X -> P <> [] -> length X = length P ->
  (c < k)%nat -> (1 <= d)%nat ->
  length X' = length P' ->
  Permutation (combine P X) (combine P' X') ->
  exists p,
    pattern_class c P X = Ok p /\ length p = d /\
    pattern_class c P' X' = Ok p.
Proof.
  intros HrP HrX HP Hlen Hc Hd Hlen' Hperm.
  assert (HPP : Permutation P P').
  { rewrite <- (map_fst_combine _ _ P X), <- (map_fst_combine _ _ P' X') by lia.
    apply Permutation_map. exact Hperm. }
  assert (HXX : Permutation X X').
  { rewrite <- (map_snd_combine _ _ P X), <- (map_snd_combine _ _ P' X') by lia.
    apply Permutation_map. exact Hperm. }
  assert (HP' : P' <> []).
  { apply (length_nonempty _ P); [exact HP|]. symmetry. apply Permutation_length, HPP. }
  destruct (pattern_class_ok k d c P X HrP HrX HP Hlen Hc Hd)
    as (LN & DS & _ & _ & _ & _ & HcP & HcX & Hp).
  destruct (pattern_class_ok k d c P' X' (rect_Permutation k P P' HPP HrP)
              (rect_Permutation d X X' HXX HrX) HP' Hlen' Hc Hd)
    as (LN' & DS' & _ & _ & _ & _ & HcP' & HcX' & Hp').
  exists (map (fun j => dot (column c LN) (column j DS)) (seq 0 d)).
  split; [exact Hp|]. split; [rewrite length_map, length_seq; reflexivity|].
  rewrite Hp'. f_equal. apply map_ext_in. intros j Hj.
  apply in_seq in Hj.
  rewrite HcP, HcP', (HcX j), (HcX' j) by lia.
  rewrite <- (mean_Permutation _ _ (column_Permutation c P P' HPP)).
  rewrite <- (scale_of_Permutation _ _ (column_Permutation c P P' HPP)).
  rewrite <- (scale_of_Permutation _ _ (column_Permutation j X X' HXX)).
  rewrite !dot_columns.
  apply sum_Permutation, Permutation_map, Permutation_sym, Hperm.
Qed.

(** Swapping the two documents of the small run. *)
Lemma pattern_permutation_invariant_witness :
  exists p,
    pattern_class 1 predictions_example features_example = Ok p /\
    length p = 3%nat /\
    pattern_class 1 (rev predictions_example) (rev features_example) = Ok p.
Proof.
  apply (pattern_permutation_invariant 2 3 1 predictions_example features_example).
  - repeat constructor.
  - repeat constructor.
  - discriminate.
  - reflexivity.
  - lia.
  - lia.
  - reflexivity.
  - apply perm_swap.
Defined.

(** ** Word scores *)

Lemma dot_comm (u v : vec) : dot u v = dot v u.
Proof.
  revert v. induction u as [|x u IH]; intros [|y v]; try reflexivity.
  rewrite !dot_cons, IH. ring.
Qed.

(** Inner product with a row that is zero except for [a] at index [i]. *)
Lemma dot_unit (a : R) (i : nat) (v : vec) (m : nat) :
  dot (map (fun l => if (i =? l)%nat then a else 0) (seq m (length v))) v
  = if ((m <=? i) && (i <? m + length v))%nat then a * nth (i - m) v 0 else 0.
Proof.
  revert m. induction v as [|y v IH]; intros m.
  - cbn [length seq map]. replace (m + 0)%nat with m by lia.
    destruct (m <=? i)%nat eqn:E1; destruct (i <? m)%nat eqn:E2; try reflexivity.
    apply Nat.leb_le in E1. apply Nat.ltb_lt in E2. lia.
  - cbn [length seq map]. rewrite dot_cons, IH.
    destruct (i =? m)%nat eqn:E.
    + apply Nat.eqb_eq in E. subst m.
      replace (S i <=? i)%nat with false by (symmetry; apply Nat.leb_gt; lia).
      rewrite Nat.leb_refl.
      replace (i <? i + S (length v))%nat with true by (symmetry; apply Nat.ltb_lt; lia).
      rewrite Nat.sub_diag. cbn [andb nth]. ring.
    + apply Nat.eqb_neq in E.
      destruct (m <=? i)%nat eqn:E1.
      * apply Nat.leb_le in E1.
        replace (S m <=? i)%nat with true by (symmetry; apply Nat.leb_le; lia).
        replace (S m + length v)%nat with (m + S (length v))%nat by lia.
        destruct (i <? m + S (length v))%nat; cbn [andb]; [|ring].
        replace (i - m)%nat with (S (i - S m)) by lia. cbn [nth]. ring.
      * apply Nat.leb_gt in E1.
        replace (S m <=? i)%nat with false by (symmetry; apply Nat.leb_gt; lia).
        cbn [andb]. ring.
Qed.

Lemma dot_unit_row (a : R) (i : nat) (v : vec) :
  (i < length v)%nat ->
  dot (map (fun l => if (i =? l)%nat then a else 0) (seq 0 (length v))) v = a * nth i v 0.
Proof.
  intros H. rewrite dot_unit. cbn [Nat.leb andb Nat.add].
  apply Nat.ltb_lt in H. rewrite H, Nat.sub_0_r. reflexivity.
Qed.

Lemma column_diags (p : vec) (j : nat) :
  (j < length p)%nat ->
  column j (diags p)
  = map (fun l => if (j =? l)%nat then nth j p 0 else 0) (seq 0 (length p)).
Proof.
  intros Hj. unfold column, diags. rewrite map_map.
  apply map_ext. intros l. rewrite nth_map_seq by exact Hj.
  rewrite Nat.eqb_sym.
  destruct (j =? l)%nat eqn:E; [|reflexivity].
  apply Nat.eqb_eq in E. subst. reflexivity.
Qed.

Lemma nth_diags (s : vec) (i : nat) :
  (i < length s)%nat ->
  nth i (diags s) []
  = map (fun l => if (i =? l)%nat then nth i s 0 else 0) (seq 0 (length s)).
Proof. intros Hi. unfold diags. apply nth_map_seq_gen. exact Hi. Qed.

Lemma ncols_diags (s : vec) : ncols (diags s) = length s.
Proof.
  unfold ncols, diags. destruct s as [|x s]; [reflexivity|].
  cbn [length seq map hd]. rewrite length_map, length_seq. reflexivity.
Qed.

Lemma nrows_diags (s : vec) : nrows (diags s) = length s.
Proof. unfold nrows, diags. rewrite length_map, length_seq. reflexivity. Qed.

Lemma entry_gt0 (D : matrix) (i j : nat) :
  entry (gt0 D) i j = if Rlt_dec 0 (entry D i j) then 1 else 0.
Proof.
  unfold entry, gt0.
  assert (H0 : (if Rlt_dec 0 0 then 1 else 0) = 0)
    by (destruct (Rlt_dec 0 0); [lra|reflexivity]).
  replace (@nil R) with (map (fun x => if Rlt_dec 0 x then 1 else 0) []) at 1 by reflexivity.
  rewrite map_nth.
  rewrite (nth_map_default _ j _ 0 0) by exact H0. reflexivity.
Qed.

Lemma rect_gt0 (d : nat) (D : matrix) : rect d D -> rect d (gt0 D).
Proof. apply map_rect. intros r. apply length_map. Qed.

(** The product [diags(s) * G @ diags(p)] is defined on matching shapes
    and scales entry [(i, j)] of [G] by [s[i]] and [p[j]]. *)
Lemma word_scores_of_spec (d : nat) (s p : vec) (D : matrix) :
  rect d D -> D <> [] -> length s = length D -> length p = d ->
  exists W, word_scores_of s D p = Ok W /\ length W = length D /\ rect d W /\
    forall i j, (i < length D)%nat -> (j < d)%nat ->
      entry W i j
      = nth i s 0 * (if Rlt_dec 0 (entry D i j) then 1 else 0) * nth j p 0.
Proof.
  intros Hr HD Hs Hp.
  set (G := gt0 D).
  assert (HlG : length G = length D) by apply length_map.
  assert (HrG : rect d G) by (apply rect_gt0; exact Hr).
  assert (HcG : ncols G = d).
  { apply rect_ncols; [exact HrG|]. apply (length_nonempty _ D); assumption. }
  set (A := map (fun r => map (fun j => dot r (column j G)) (seq 0 d)) (diags s)).
  set (W := map (fun r => map (fun j => dot r (column j (diags p))) (seq 0 d)) A).
  assert (HlA : length A = length D).
  { unfold A. rewrite length_map. fold (nrows (diags s)). rewrite nrows_diags. exact Hs. }
  assert (HrA : rect d A).
  { unfold A, rect. apply Forall_forall. intros r Hin.
    apply in_map_iff in Hin. destruct Hin as (r0 & <- & _).
    rewrite length_map, length_seq. reflexivity. }
  exists W. split; [|split; [|split]].
  - unfold word_scores_of, matmul. fold G.
    rewrite ncols_diags. unfold nrows at 1. rewrite HlG, Hs, Nat.eqb_refl.
    rewrite HcG. cbn [bind]. fold A.
    rewrite (rect_ncols d A HrA) by (apply (length_nonempty _ D); assumption).
    rewrite nrows_diags, Hp, Nat.eqb_refl, ncols_diags, Hp. reflexivity.
  - unfold W. rewrite length_map. exact HlA.
  - unfold W, rect. apply Forall_forall. intros r Hin.
    apply in_map_iff in Hin. destruct Hin as (r0 & <- & _).
    rewrite length_map, length_seq. reflexivity.
  - intros i j Hi Hj.
    assert (HAi : nth i A []
                  = map (fun j => dot (nth i (diags s) []) (column j G)) (seq 0 d)).
    { unfold A. rewrite (nth_map_in_range _ _ _ i (diags s) []); [reflexivity|].
      fold (nrows (diags s)). rewrite nrows_diags. lia. }
    unfold entry at 1. unfold W.
    rewrite (nth_map_in_range _ _ _ i A []) by lia.
    rewrite nth_map_seq by exact Hj.
    rewrite column_diags by lia.
    assert (HlAi : length (nth i A []) = length p).
    { rewrite HAi, length_map, length_seq. lia. }
    rewrite dot_comm, <- HlAi, dot_unit_row by lia.
    rewrite HAi, nth_map_seq by exact Hj.
    rewrite nth_diags by lia.
    replace (length s) with (length (column j G)) by (rewrite column_length; lia).
    rewrite dot_unit_row by (rewrite column_length; lia).
    rewrite nth_column. unfold G. rewrite entry_gt0. ring.
Qed.

Lemma fit_transform_shape (wm : bool) (d : nat) (X Y : matrix) :
  fit_transform wm X = Ok Y -> rect d X -> rect d Y /\ length Y = length X.
Proof.
  unfold fit_transform. intros H Hr.
  destruct ((nrows X =? 0)%nat || (ncols X =? 0)%nat); [discriminate|].
  injection H as <-. split; [|apply length_map].
  apply map_rect; [apply transform_row_length|exact Hr].
Qed.

Lemma rect_nth_length (d : nat) (M : matrix) (i : nat) :
  rect d M -> (i < length M)%nat -> length (nth i M []) = d.
Proof.
  intros Hr Hi. unfold rect in Hr. rewrite Forall_forall in Hr.
  apply Hr, nth_In, Hi.
Qed.

(** C3: the word scores are returned, and the relevance of term [j] for
    document [i] is the prediction sign of the document times the
    presence indicator of the scaled feature entry times the pattern
    entry; it is non-zero only where the term occurs in the document. *)
Theorem word_scores_relevance (k d : nat) (P X : matrix) :
  rect k P -> rect d X -> P <> [] -> length X = length P ->
  (1 <= k)%nat -> (1 <= d)%nat ->
  exists DS p W,
    data_scaled X = Ok DS /\ pattern P X = Ok p /\ word_scores P X = Ok W /\
    length W = length X /\ rect d W /\
    forall i j, (i < length X)%nat -> (j < d)%nat ->
      entry W i j
      = nth i (prediction_sign P) 0
        * (if Rlt_dec 0 (entry DS i j) then 1 else 0)
        * nth j p 0 /\
      (entry W i j <> 0 -> entry X i j <> 0).
Proof.
  intros HrP HrX HP Hlen Hk Hd.
  destruct (pattern_class_ok k d 0 P X HrP HrX HP Hlen ltac:(lia) Hd)
    as (LN & DS & _ & HDS & _ & HlDS & _ & HcX & Hp).
  destruct (fit_transform_shape false d X DS HDS HrX) as [HrDS _].
  set (p := map (fun j => dot (column 0 LN) (column j DS)) (seq 0 d)) in *.
  assert (HDSne : DS <> []).
  { apply (length_nonempty _ X); [|exact HlDS]. apply (length_nonempty _ P); assumption. }
  destruct (word_scores_of_spec d (prediction_sign P) p DS HrDS HDSne) as (W & HW & HlW & HrW & He).
  { unfold prediction_sign. rewrite length_map. lia. }
  { unfold p. rewrite length_map, length_seq. reflexivity. }
  exists DS, p, W.
  split; [exact HDS|]. split; [exact Hp|]. split.
  { unfold word_scores. rewrite HDS. cbn [bind]. unfold pattern. rewrite Hp. exact HW. }
  split; [lia|]. split; [exact HrW|].
  intros i j Hi Hj. rewrite He by lia. split; [reflexivity|].
  intros Hnz Hx.
  apply (entry_scaled_zero (scale_of (column j X)) i j X DS (HcX j Hj)) in Hx.
  rewrite Hx in Hnz. destruct (Rlt_dec 0 0); [lra|]. apply Hnz. ring.
Qed.

(** The relevance theorem on the small run. *)
Lemma word_scores_relevance_witness :
  exists DS p W,
    data_scaled features_example = Ok DS /\
    pattern predictions_example features_example = Ok p /\
    word_scores predictions_example features_example = Ok W /\
    length W = length features_example /\ rect 3 W /\
    forall i j, (i < length features_example)%nat -> (j < 3)%nat ->
      entry W i j
      = nth i (prediction_sign predictions_example) 0
        * (if Rlt_dec 0 (entry DS i j) then 1 else 0)
        * nth j p 0 /\
      (entry W i j <> 0 -> entry features_example i j <> 0).
Proof.
  apply (word_scores_relevance 2 3 predictions_example features_example).
  - repeat constructor.
  - repeat constructor.
  - discriminate.
  - reflexivity.
  - lia.
  - lia.
Defined.

(** C8: on the same scaled features and pattern, the relevance vector of
    a document scored with sign [-1] is the elementwise negation of its
    relevance vector scored with sign [+1]. *)
Theorem sign_flip_negates (d : nat) (s s' p : vec) (D : matrix) (i : nat) :
  rect d D -> D <> [] -> length s = length D -> length s' = length D ->
  length p = d -> (i < length D)%nat ->
  nth i s 0 = 1 -> nth i s' 0 = -1 ->
  exists W W',
    word_scores_of s D p = Ok W /\ word_scores_of s' D p = Ok W' /\
    nth i W' [] = map Ropp (nth i W []).
Proof.
  intros Hr HD Hs Hs' Hp Hi H1 H2.
  destruct (word_scores_of_spec d s p D Hr HD Hs Hp) as (W & HW & HlW & HrW & He).
  destruct (word_scores_of_spec d s' p D Hr HD Hs' Hp) as (W' & HW' & HlW' & HrW' & He').
  exists W, W'. split; [exact HW|]. split; [exact HW'|].
  pose proof (rect_nth_length d W i HrW ltac:(lia)) as Hl.
  pose proof (rect_nth_length d W' i HrW' ltac:(lia)) as Hl'.
  apply (nth_ext _ _ 0 (- 0)).
  - rewrite length_map. lia.
  - intros j Hj. rewrite map_nth.
    change (entry W' i j = - entry W i j).
    rewrite He, He' by lia. rewrite H1, H2. ring.
Qed.

(** Flipping the sign of the first document of the small run. *)
Lemma sign_flip_negates_witness :
  exists W W',
    word_scores_of [1; 1] features_example [0.5; -2; 0] = Ok W /\
    word_scores_of [-1; 1] features_example [0.5; -2; 0] = Ok W' /\
    nth 0 W' [] = map Ropp (nth 0 W []).
Proof.
  apply (sign_flip_negates 3 [1; 1] [-1; 1] [0.5; -2; 0] features_example 0).
  - repeat constructor.
  - discriminate.
  - reflexivity.
  - reflexivity.
  - reflexivity.
  - simpl. lia.
  - reflexivity.
  - reflexivity.
Defined.

(** ** Presence and scaling *)

Lemma gt0_column_scaled (d : nat) (mu sc : vec) (X : matrix) :
  rect d X -> (forall j, (j < d)%nat -> 0 < nth j sc 1) ->
  gt0 (map (transform_row false mu sc) X) = gt0 X.
Proof.
  intros Hr Hsc. unfold gt0. rewrite map_map. apply map_ext_in. intros r Hin.
  assert (Hl : length r = d) by (unfold rect in Hr; rewrite Forall_forall in Hr; auto).
  apply (nth_ext _ _ 0 0).
  - rewrite !length_map. apply transform_row_length.
  - intros j Hj. rewrite !length_map, transform_row_length in Hj.
    rewrite !(nth_map_in_range _ _ _ j _ 0) by (rewrite ?transform_row_length; exact Hj).
    rewrite nth_transform_row by exact Hj.
    pose proof (Hsc j ltac:(lia)) as Hs.
    rewrite Rminus_0_r.
    destruct (Rlt_dec 0 (nth j r 0 / nth j sc 1)) as [H|H];
      destruct (Rlt_dec 0 (nth j r 0)) as [H'|H']; try reflexivity; exfalso.
    + apply H'. apply (Rmult_lt_compat_r _ _ _ Hs) in H.
      unfold Rdiv in H. rewrite Rmult_0_l, Rmult_assoc, Rinv_l, Rmult_1_r in H by lra.
      exact H.
    + apply H. apply Rdiv_lt_0_compat; assumption.
Qed.

Lemma gt0_presence (X : matrix) : nonneg X -> gt0 X = presence X.
Proof.
  intros Hn. unfold gt0, presence. apply map_ext_in. intros r Hin.
  unfold nonneg in Hn. rewrite Forall_forall in Hn. specialize (Hn r Hin).
  apply map_ext_in. intros x Hx. rewrite Forall_forall in Hn. specialize (Hn x Hx).
  destruct (Rlt_dec 0 x); destruct (Req_dec_T x 0); try reflexivity; lra.
Qed.

Lemma word_scores_of_gt0 (s p : vec) (D D' : matrix) :
  gt0 D = gt0 D' -> word_scores_of s D p = word_scores_of s D' p.
Proof. intros H. unfold word_scores_of. rewrite H. reflexivity. Qed.

(** C10: when every column of a non-negative feature matrix is divided
    by a strictly positive scale, the indicator [(scaled > 0)] is the
    presence indicator of the raw matrix, and the word scores are those
    computed from the raw matrix; [data_scaled] is such a scaling. *)
Theorem presence_independent_of_scaling (d : nat) (mu sc : vec) (X : matrix) :
  rect d X -> nonneg X -> (forall j, (j < d)%nat -> 0 < nth j sc 1) ->
  gt0 (map (transform_row false mu sc) X) = presence X /\
  (forall s p,
     word_scores_of s (map (transform_row false mu sc) X) p = word_scores_of s X p) /\
  (X <> [] -> (1 <= d)%nat ->
   exists DS, data_scaled X = Ok DS /\ gt0 DS = presence X /\
     forall s p, word_scores_of s DS p = word_scores_of s X p).
Proof.
  intros Hr Hn Hsc.
  split; [|split].
  - rewrite (gt0_column_scaled d) by assumption. apply gt0_presence, Hn.
  - intros s p. apply word_scores_of_gt0, (gt0_column_scaled d); assumption.
  - intros HX Hd.
    exists (map (transform_row false (mean_ X) (scale_ X)) X).
    assert (Hpos : forall j, (j < d)%nat -> 0 < nth j (scale_ X) 1).
    { intros j Hj. rewrite nth_scale_ by (rewrite (rect_ncols d X Hr HX); exact Hj).
      apply scale_of_pos. }
    split; [|split].
    + unfold data_scaled, fit_transform.
      rewrite nonempty_nrows, (rect_ncols d X Hr HX) by exact HX.
      destruct d; [lia|reflexivity].
    + rewrite (gt0_column_scaled d) by assumption. apply gt0_presence, Hn.
    + intros s p. apply word_scores_of_gt0, (gt0_column_scaled d); assumption.
Qed.

(** Dividing the columns of the small run by 2, 4 and 1. *)
Lemma presence_independent_of_scaling_witness :
  gt0 (map (transform_row false [] [2; 4; 1]) features_example)
  = presence features_example /\
  (forall s p,
     word_scores_of s (map (transform_row false [] [2; 4; 1]) features_example) p
     = word_scores_of s features_example p) /\
  (features_example <> [] -> (1 <= 3)%nat ->
   exists DS, data_scaled features_example = Ok DS /\ gt0 DS = presence features_example /\
     forall s p, word_scores_of s DS p = word_scores_of s features_example p).
Proof.
  apply (presence_independent_of_scaling 3 [] [2; 4; 1] features_example).
  - repeat constructor.
  - unfold nonneg, features_example. repeat constructor; lra.
  - intros j Hj.
    destruct j as [|[|[|j]]]; simpl; try lra. lia.
Defined.

(** ** Idempotence of the variance-only scaling *)

(** C9: variance-only scaling leaves a feature column of unit variance
    unchanged (exactly, over the reals). *)
Theorem unit_variance_column_unchanged (d j : nat) (X : matrix) :
  rect d X -> X <> [] -> (j < d)%nat ->
  var (column j X) = 1 ->
  exists DS, data_scaled X = Ok DS /\ column j DS = column j X.
Proof.
  intros Hr HX Hj Hv.
  destruct (fit_transform_spec false d X Hr HX ltac:(lia)) as (DS & HDS & _ & _ & Hc).
  exists DS. split; [exact HDS|].
  rewrite (Hc j Hj).
  rewrite (scale_of_eq (column j X) 1) by lra.
  rewrite <- (map_id (column j X)) at 2. apply map_ext. intros x. field.
Qed.

(** A column of mean 1 and variance 1. *)
Lemma unit_variance_column_unchanged_witness :
  exists DS, data_scaled [[2; 0]; [0; 5]] = Ok DS /\
             column 0 DS = column 0 [[2; 0]; [0; 5]].
Proof.
  apply (unit_variance_column_unchanged 2 0 [[2; 0]; [0; 5]]).
  - repeat constructor.
  - discriminate.
  - lia.
  - unfold var, mean. simpl. lra.
Defined.

(** Scaling twice is scaling once. *)
Lemma data_scaled_idempotent (d : nat) (X DS : matrix) :
  rect d X -> data_scaled X = Ok DS -> data_scaled DS = Ok DS.
Proof.
  intros Hr HDS.
  destruct (fit_transform_inv false X DS HDS) as [HX Hd].
  rewrite (rect_ncols d X Hr HX) in Hd.
  destruct (fit_transform_spec false d X Hr HX Hd) as (DS0 & HDS0 & HrDS & HlDS & Hc).
  unfold data_scaled in HDS. rewrite HDS in HDS0. injection HDS0 as <-.
  assert (HDSne : DS <> []) by (apply (length_nonempty _ X); assumption).
  unfold data_scaled, fit_transform.
  rewrite nonempty_nrows, (rect_ncols d DS HrDS HDSne) by exact HDSne.
  destruct d as [|d']; [lia|]. cbn [Nat.eqb orb]. f_equal.
  transitivity (map (fun r : vec => r) DS); [|apply map_id].
  apply map_ext_in. intros r Hin.
  assert (Hl : length r = S d')
    by (unfold rect in HrDS; rewrite Forall_forall in HrDS; auto).
  apply (nth_ext _ _ 0 0); [apply transform_row_length|].
  intros i Hi. rewrite transform_row_length in Hi.
  rewrite nth_transform_row by exact Hi.
  rewrite nth_scale_ by (rewrite (rect_ncols _ DS HrDS HDSne); lia).
  rewrite (Hc i) by lia.
  destruct (unit_scaled_column (column i X) (column_nonempty i X HX)) as [H1 H2].
  destruct (Req_dec_T (var (column i X)) 0) as [E|E].
  - rewrite (H2 E), (scale_of_var_zero _ E). field.
  - destruct (H1 E) as [_ Hv1].
    rewrite (scale_of_eq _ 1) by (rewrite ?Hv1; lra). field.
Qed.

(** ** Sorting and the top words *)

Lemma sorted_back_S (v : vec) (m : nat) :
  sorted_back v (S m) = insert_back v m (sorted_back v m).
Proof. unfold sorted_back. rewrite seq_S, fold_left_app. reflexivity. Qed.

Lemma insert_back_perm (v : vec) (i : nat) (l : list nat) :
  Permutation (insert_back v i l) (i :: l).
Proof.
  induction l as [|k l IH]; [apply Permutation_refl|].
  cbn [insert_back]. destruct (Rlt_dec (nth i v 0) (nth k v 0)).
  - eapply perm_trans; [apply perm_skip, IH|apply perm_swap].
  - apply Permutation_refl.
Qed.

Lemma sorted_back_perm (v : vec) (m : nat) :
  Permutation (sorted_back v m) (rev (seq 0 m)).
Proof.
  induction m as [|m IH]; [apply Permutation_refl|].
  rewrite sorted_back_S, seq_S, rev_app_distr. cbn [rev app].
  eapply perm_trans; [apply insert_back_perm|]. apply perm_skip, IH.
Qed.

Lemma sorted_back_In (v : vec) (m x : nat) :
  In x (sorted_back v m) <-> (x < m)%nat.
Proof.
  split; intros H.
  - apply (Permutation_in _ (sorted_back_perm v m)) in H.
    apply in_rev, in_seq in H. lia.
  - apply (Permutation_in _ (Permutation_sym (sorted_back_perm v m))).
    apply in_rev. rewrite rev_involutive. apply in_seq. lia.
Qed.

Lemma sorted_back_length (v : vec) (m : nat) : length (sorted_back v m) = m.
Proof.
  rewrite (Permutation_length (sorted_back_perm v m)), length_rev, length_seq.
  reflexivity.
Qed.

Lemma sorted_back_NoDup (v : vec) (m : nat) : NoDup (sorted_back v m).
Proof.
  apply (Permutation_NoDup (Permutation_sym (sorted_back_perm v m))).
  apply NoDup_rev, seq_NoDup.
Qed.

Lemma insert_back_sorted (v : vec) (i : nat) (l : list nat) :
  StronglySorted (before v) l -> (forall x, In x l -> (x < i)%nat) ->
  StronglySorted (before v) (insert_back v i l).
Proof.
  induction l as [|k l IH]; intros Hs Hlt.
  - repeat constructor.
  - apply StronglySorted_inv in Hs. destruct Hs as [Hs Hk].
    cbn [insert_back]. destruct (Rlt_dec (nth i v 0) (nth k v 0)) as [Hlt'|Hge].
    + constructor.
      * apply IH; [exact Hs|]. intros x Hx. apply Hlt. right. exact Hx.
      * apply (Permutation_Forall (Permutation_sym (insert_back_perm v i l))).
        constructor; [left; exact Hlt'|exact Hk].
    + assert (Hki : before v i k).
      { unfold before. pose proof (Hlt k (or_introl eq_refl)) as Hk_lt.
        destruct (Rtotal_order (nth k v 0) (nth i v 0)) as [H|[H|H]];
          [left; exact H|right; split; assumption|lra]. }
      constructor; [constructor; assumption|].
      constructor; [exact Hki|].
      rewrite Forall_forall in Hk |- *. intros x Hx.
      pose proof (Hlt x (or_intror Hx)) as Hxi.
      specialize (Hk x Hx). unfold before in *.
      destruct Hk as [Hk|[Hk _]]; destruct Hki as [Hki|[Hki _]];
        first [left; lra | right; split; [lra|exact Hxi]].
Qed.

Lemma sorted_back_sorted (v : vec) (m : nat) :
  StronglySorted (before v) (sorted_back v m).
Proof.
  induction m as [|m IH]; [constructor|].
  rewrite sorted_back_S. apply insert_back_sorted; [exact IH|].
  intros x Hx. apply sorted_back_In in Hx. exact Hx.
Qed.

Lemma StronglySorted_app_inv (A : Type) (R : A -> A -> Prop) (l l' : list A) :
  StronglySorted R (l ++ l') ->
  StronglySorted R l /\ forall a b, In a l -> In b l' -> R a b.
Proof.
  induction l as [|x l IH]; cbn [app]; intros H.
  - split; [constructor|]. intros a b [].
  - apply StronglySorted_inv in H. destruct H as [Hs Hx].
    destruct (IH Hs) as [Hl Hc]. rewrite Forall_forall in Hx.
    split.
    + constructor; [exact Hl|]. apply Forall_forall. intros y Hy.
      apply Hx, in_or_app. left. exact Hy.
    + intros a b [<-|Ha] Hb; [apply Hx, in_or_app; right; exact Hb|].
      apply Hc; assumption.
Qed.

Lemma StronglySorted_weaken (A : Type) (R R' : A -> A -> Prop) (l : list A) :
  (forall a b, R a b -> R' a b) -> StronglySorted R l -> StronglySorted R' l.
Proof.
  intros HR. induction 1 as [|a l _ IH Ha]; constructor; [exact IH|].
  eapply Forall_impl; [|exact Ha]. intros b. apply HR.
Qed.

Lemma StronglySorted_snoc (A : Type) (R : A -> A -> Prop) (l : list A) (x : A) :
  StronglySorted R l -> (forall y, In y l -> R y x) -> StronglySorted R (l ++ [x]).
Proof.
  induction 1 as [|a l Hs IH Ha]; intros Hx; cbn [app].
  - repeat constructor.
  - constructor.
    + apply IH. intros y Hy. apply Hx. right. exact Hy.
    + apply Forall_app. split; [exact Ha|].
      constructor; [|constructor]. apply Hx. left. reflexivity.
Qed.

Lemma StronglySorted_rev (A : Type) (R : A -> A -> Prop) (l : list A) :
  StronglySorted R l -> StronglySorted (fun a b => R b a) (rev l).
Proof.
  induction 1 as [|a l Hs IH Ha]; cbn [rev]; [constructor|].
  apply StronglySorted_snoc; [exact IH|].
  intros y Hy. apply in_rev in Hy. rewrite Forall_forall in Ha. apply Ha, Hy.
Qed.

Lemma before_le (v : vec) (a b : nat) : before v a b -> nth b v 0 <= nth a v 0.
Proof. unfold before. intros [H|[H _]]; lra. Qed.

(** The insertion sort is an argsort. *)
Lemma insertion_argsort_contract : is_argsort insertion_argsort.
Proof.
  intros v. unfold insertion_argsort. split.
  - eapply perm_trans; [apply Permutation_sym, Permutation_rev|].
    eapply perm_trans; [apply sorted_back_perm|].
    apply Permutation_sym, Permutation_rev.
  - apply (StronglySorted_rev _ (fun a b => nth b v 0 <= nth a v 0)).
    apply (StronglySorted_weaken _ (before v)); [apply before_le|].
    apply sorted_back_sorted.
Qed.

(** Reversing the slice [l[-k:]] keeps a prefix of the reversed list. *)
Lemma slice_from_rev (A : Type) (k : Z) (l : list A) :
  rev (slice_from (- k) l) = firstn (top_count k (length l)) (rev l).
Proof.
  unfold slice_from, top_count. rewrite firstn_rev. f_equal. f_equal.
  destruct (0 <? k)%Z eqn:E.
  - apply Z.ltb_lt in E.
    replace (- k <? 0)%Z with true by (symmetry; apply Z.ltb_lt; lia).
    lia.
  - apply Z.ltb_ge in E.
    replace (- k <? 0)%Z with false by (symmetry; apply Z.ltb_ge; lia).
    lia.
Qed.

Lemma top_k_firstn (argsort : vec -> list nat) (v : vec) (k : Z) :
  top_k argsort v k
  = firstn (top_count k (length (argsort v))) (rev (argsort v)).
Proof. apply slice_from_rev. Qed.

Lemma argsort_length (argsort : vec -> list nat) (v : vec) :
  is_argsort argsort -> length (argsort v) = length v.
Proof.
  intros H. destruct (H v) as [Hp _].
  rewrite (Permutation_length Hp), length_seq. reflexivity.
Qed.

Lemma top_k_length (argsort : vec -> list nat) (v : vec) (k : Z) :
  is_argsort argsort -> length (top_k argsort v k) = top_count k (length v).
Proof.
  intros H. rewrite top_k_firstn, length_firstn, length_rev, (argsort_length _ v H).
  unfold top_count. destruct (0 <? k)%Z; lia.
Qed.

(** What every argsort gives the selection, whatever [k]: distinct
    indices within range, in descending order of value, none left out
    having a larger value than one selected. *)
Lemma top_k_selection (argsort : vec -> list nat) (v : vec) (k : Z) :
  is_argsort argsort ->
  NoDup (top_k argsort v k) /\
  (forall a, In a (top_k argsort v k) -> (a < length v)%nat) /\
  StronglySorted (fun a b => nth b v 0 <= nth a v 0) (top_k argsort v k) /\
  (forall a b, In a (top_k argsort v k) -> (b < length v)%nat ->
     ~ In b (top_k argsort v k) -> nth b v 0 <= nth a v 0).
Proof.
  intros H. destruct (H v) as [Hp Hs].
  set (desc := rev (argsort v)).
  assert (Hpd : Permutation desc (seq 0 (length v))).
  { eapply perm_trans; [apply Permutation_sym, Permutation_rev|exact Hp]. }
  assert (Hsd : StronglySorted (fun a b => nth b v 0 <= nth a v 0) desc).
  { apply (StronglySorted_rev _ (fun a b => nth a v 0 <= nth b v 0)). exact Hs. }
  pose proof (top_k_firstn argsort v k) as Ht. fold desc in Ht.
  set (n := top_count k (length (argsort v))) in *.
  pose proof (firstn_skipn n desc) as Hsplit. rewrite <- Ht in Hsplit.
  rewrite <- Hsplit in Hsd. apply StronglySorted_app_inv in Hsd.
  destruct Hsd as [Hsl Hc].
  assert (Hin : forall a, In a desc <-> (a < length v)%nat).
  { intros a. split; intros Ha.
    - apply (Permutation_in _ Hpd) in Ha. apply in_seq in Ha. lia.
    - apply (Permutation_in _ (Permutation_sym Hpd)). apply in_seq. lia. }
  split; [|split; [|split]].
  - assert (Hnd : NoDup desc).
    { apply (Permutation_NoDup (Permutation_sym Hpd)), seq_NoDup. }
    rewrite <- Hsplit in Hnd. apply NoDup_app_remove_r in Hnd. exact Hnd.
  - intros a Ha. apply Hin. rewrite <- Hsplit. apply in_or_app. left. exact Ha.
  - exact Hsl.
  - intros a b Ha Hb Hnb. apply Hc; [exact Ha|].
    apply Hin in Hb. rewrite <- Hsplit in Hb.
    apply in_app_or in Hb. destruct Hb as [Hb|Hb]; [contradiction|exact Hb].
Qed.

(** When the count reaches the length, every index is returned. *)
Lemma top_k_all (argsort : vec -> list nat) (v : vec) (k : Z) :
  is_argsort argsort -> top_count k (length v) = length v ->
  Permutation (top_k argsort v k) (seq 0 (length v)).
Proof.
  intros H E. rewrite top_k_firstn, (argsort_length _ _ H), E.
  rewrite firstn_all2 by (rewrite length_rev, (argsort_length _ _ H); lia).
  eapply perm_trans; [apply Permutation_sym, Permutation_rev|]. apply (H v).
Qed.

(** The selection under [insertion_argsort], for evaluation. *)
Lemma top_k_insertion (v : vec) (k : Z) :
  top_k insertion_argsort v k
  = firstn (top_count k (length v)) (sorted_back v (length v)).
Proof.
  rewrite top_k_firstn. unfold insertion_argsort.
  rewrite rev_involutive, length_rev, sorted_back_length. reflexivity.
Qed.

Ltac eval_top_k :=
  rewrite top_k_insertion; unfold sorted_back, top_count;
  cbn [length seq fold_left Z.ltb Z.compare Z.opp Z.to_nat Pos.to_nat Pos.iter_op
       Nat.add Nat.min Nat.sub];
  repeat (cbn [insert_back nth];
          match goal with
          | |- context [Rlt_dec ?a ?b] => destruct (Rlt_dec a b); try lra
          end);
  try reflexivity.

Lemma top_k_example : top_k insertion_argsort relevance_example 2 = [1; 5]%nat.
Proof. unfold relevance_example. eval_top_k. Qed.

(** On the example vector every argsort selects index 1 first and then
    one of the two indices of relevance 0.5. *)
Lemma top_k_example_any (argsort : vec -> list nat) :
  is_argsort argsort ->
  top_k argsort relevance_example 2 = [1; 2]%nat \/
  top_k argsort relevance_example 2 = [1; 5]%nat.
Proof.
  intros H.
  pose proof (top_k_length argsort relevance_example 2 H) as Hl.
  destruct (top_k_selection argsort relevance_example 2 H) as (Hnd & Hin & Hs & Hout).
  destruct (top_k argsort relevance_example 2) as [|a [|b [|c l]]]; try discriminate Hl.
  clear Hl.
  assert (Ha : (a < 6)%nat) by (apply Hin; left; reflexivity).
  assert (Hb : (b < 6)%nat) by (apply Hin; right; left; reflexivity).
  assert (Hab : a <> b).
  { inversion Hnd as [|? ? Hn _]; subst. intros ->. apply Hn. left. reflexivity. }
  assert (Hba : nth b relevance_example 0 <= nth a relevance_example 0).
  { apply StronglySorted_inv in Hs. destruct Hs as [_ Hf].
    inversion Hf; subst. assumption. }
  assert (Ho : forall c, (c < 6)%nat -> c <> a -> c <> b ->
                         nth c relevance_example 0 <= nth b relevance_example 0).
  { intros c Hc Hca Hcb. apply Hout; [right; left; reflexivity|exact Hc|].
    intros [E|[E|[]]]; congruence. }
  pose proof (Ho 1%nat) as H1. pose proof (Ho 2%nat) as H2. pose proof (Ho 5%nat) as H5.
  unfold relevance_example in *.
  destruct a as [|[|[|[|[|[|a]]]]]]; try lia;
    destruct b as [|[|[|[|[|[|b]]]]]]; try lia;
    cbn [nth] in *;
    try (left; reflexivity); try (right; reflexivity); exfalso;
    first [ specialize (H1 ltac:(lia) ltac:(lia) ltac:(lia)); lra
          | specialize (H2 ltac:(lia) ltac:(lia) ltac:(lia)); lra
          | specialize (H5 ltac:(lia) ltac:(lia) ltac:(lia)); lra
          | lra ].
Qed.

(** C4, amended: for every argsort and [1 <= k <= d] the top words are
    [k] distinct indices in descending order of relevance, and no index
    left out has a larger relevance than one selected; the order among
    equal relevance values is the one argsort leaves: on the spec's
    example the result is [[1; 2]] or [[1; 5]]; for [k = 0] all [d]
    indices are returned, since [[-0:]] keeps the whole array. *)
Theorem top_k_largest_descending (argsort : vec -> list nat) (v : vec) (k : Z) :
  is_argsort argsort ->
  (1 <= k <= Z.of_nat (length v))%Z ->
  length (top_k argsort v k) = Z.to_nat k /\
  NoDup (top_k argsort v k) /\
  (forall a, In a (top_k argsort v k) -> (a < length v)%nat) /\
  StronglySorted (fun a b => nth b v 0 <= nth a v 0) (top_k argsort v k) /\
  (forall a b, In a (top_k argsort v k) -> (b < length v)%nat ->
     ~ In b (top_k argsort v k) -> nth b v 0 <= nth a v 0) /\
  (top_k argsort relevance_example 2 = [1; 2]%nat \/
   top_k argsort relevance_example 2 = [1; 5]%nat) /\
  Permutation (top_k argsort v 0) (seq 0 (length v)).
Proof.
  intros H Hk.
  destruct (top_k_selection argsort v k H) as (Hnd & Hin & Hs & Hout).
  split.
  { rewrite (top_k_length _ _ _ H). unfold top_count.
    replace (0 <? k)%Z with true by (symmetry; apply Z.ltb_lt; lia). lia. }
  split; [exact Hnd|]. split; [exact Hin|]. split; [exact Hs|]. split; [exact Hout|].
  split; [apply top_k_example_any; exact H|].
  apply top_k_all; [exact H|].
  unfold top_count. cbn [Z.ltb Z.compare Z.opp Z.to_nat]. lia.
Qed.

(** The top two words of the example relevance vector, by insertion sort. *)
Lemma top_k_largest_descending_witness :
  length (top_k insertion_argsort relevance_example 2) = Z.to_nat 2 /\
  NoDup (top_k insertion_argsort relevance_example 2) /\
  (forall a, In a (top_k insertion_argsort relevance_example 2) ->
     (a < length relevance_example)%nat) /\
  StronglySorted (fun a b => nth b relevance_example 0 <= nth a relevance_example 0)
    (top_k insertion_argsort relevance_example 2) /\
  (forall a b, In a (top_k insertion_argsort relevance_example 2) ->
     (b < length relevance_example)%nat ->
     ~ In b (top_k insertion_argsort relevance_example 2) ->
     nth b relevance_example 0 <= nth a relevance_example 0) /\
  (top_k insertion_argsort relevance_example 2 = [1; 2]%nat \/
   top_k insertion_argsort relevance_example 2 = [1; 5]%nat) /\
  Permutation (top_k insertion_argsort relevance_example 0)
    (seq 0 (length relevance_example)).
Proof.
  apply (top_k_largest_descending insertion_argsort relevance_example 2).
  - exact insertion_argsort_contract.
  - simpl. lia.
Defined.

(** C4 as stated fails on its own example: an argsort that numpy's
    contract allows selects, of the two terms of relevance 0.5, the one
    of index 5 and not the one of index 2; and for [k = 0] every
    argsort returns six indices, not none. *)
Lemma tie_break_counterexample :
  is_argsort insertion_argsort /\
  top_k insertion_argsort relevance_example 2 = [1; 5]%nat /\
  top_k insertion_argsort relevance_example 2 <> [1; 2]%nat /\
  length (top_k insertion_argsort relevance_example 0) = 6%nat.
Proof.
  split; [exact insertion_argsort_contract|].
  split; [apply top_k_example|].
  split; [rewrite top_k_example; discriminate|].
  rewrite (top_k_length _ _ _ insertion_argsort_contract). reflexivity.
Qed.

Lemma nonzero_count_indices (v : vec) :
  nonzero_count v
  = length (filter (fun i => if Req_dec_T (nth i v 0) 0 then false else true)
                   (seq 0 (length v))).
Proof.
  unfold nonzero_count.
  induction v as [|x v IH] using rev_ind; [reflexivity|].
  rewrite length_app. cbn [length]. rewrite Nat.add_1_r, seq_S, !filter_app, !length_app.
  cbn [Nat.add filter]. rewrite app_nth2, Nat.sub_diag by lia. cbn [nth].
  f_equal.
  - rewrite IH. f_equal. apply filter_ext_in.
    intros i Hi. apply in_seq in Hi. rewrite app_nth1 by lia. reflexivity.
  - destruct (Req_dec_T x 0); reflexivity.
Qed.

(** More distinct indices than non-zero entries: one of them has value
    zero. *)
Lemma zero_among_selected (v : vec) (l : list nat) :
  NoDup l -> (forall a, In a l -> (a < length v)%nat) ->
  (nonzero_count v < length l)%nat ->
  Exists (fun a => nth a v 0 = 0) l.
Proof.
  intros Hnd Hin Hlt.
  destruct (Exists_dec (fun a => nth a v 0 = 0) l (fun a => Req_dec_T (nth a v 0) 0))
    as [H|H]; [exact H|exfalso].
  apply Forall_Exists_neg in H. rewrite Forall_forall in H.
  rewrite nonzero_count_indices in Hlt.
  assert (Hincl : incl l (filter (fun i => if Req_dec_T (nth i v 0) 0 then false else true)
                                 (seq 0 (length v)))).
  { intros a Ha. apply filter_In. split; [apply in_seq; specialize (Hin a Ha); lia|].
    destruct (Req_dec_T (nth a v 0) 0) as [E|_]; [exfalso; exact (H a Ha E)|reflexivity]. }
  pose proof (NoDup_incl_length Hnd Hincl). lia.
Qed.

(** C6, amended: the selection of the top words raises [IndexError] for
    a document index out of range and nothing else.  For every [k] it
    returns distinct indices within range, in descending order of
    relevance, none left out having a larger relevance than one
    returned: [k] of them for [0 < k <= d], among them an index of zero
    relevance when the row has fewer than [k] non-zero entries; all [d]
    indices for [k > d] and for [k = 0]; and [d - |k|] of them (none when
    [|k| >= d]) for [k < 0]. *)
Theorem top_words_never_fails (argsort : vec -> list nat) (ws : matrix) (idx : nat) (k : Z) :
  is_argsort argsort ->
  (nth_error ws idx = None -> top_words argsort ws idx k = Raise IndexError) /\
  (forall row, nth_error ws idx = Some row ->
     exists l, top_words argsort ws idx k = Ok l /\
       NoDup l /\
       (forall a, In a l -> (a < length row)%nat) /\
       StronglySorted (fun a b => nth b row 0 <= nth a row 0) l /\
       (forall a b, In a l -> (b < length row)%nat -> ~ In b l ->
          nth b row 0 <= nth a row 0) /\
       ((0 < k <= Z.of_nat (length row))%Z ->
          length l = Z.to_nat k /\
          ((nonzero_count row < Z.to_nat k)%nat -> Exists (fun a => nth a row 0 = 0) l)) /\
       ((Z.of_nat (length row) < k)%Z -> Permutation l (seq 0 (length row))) /\
       (k = 0%Z -> Permutation l (seq 0 (length row))) /\
       ((k < 0)%Z -> length l = (length row - Z.to_nat (- k))%nat)).
Proof.
  intros H. split.
  { intros Hrow. unfold top_words, getrow. rewrite Hrow. reflexivity. }
  intros row Hrow. exists (top_k argsort row k).
  destruct (top_k_selection argsort row k H) as (Hnd & Hin & Hs & Hout).
  pose proof (top_k_length argsort row k H) as Hl.
  pose proof (top_k_all argsort row k H) as Hall.
  split; [unfold top_words, getrow; rewrite Hrow; reflexivity|].
  split; [exact Hnd|]. split; [exact Hin|]. split; [exact Hs|]. split; [exact Hout|].
  unfold top_count in *.
  destruct (0 <? k)%Z eqn:E; [apply Z.ltb_lt in E|apply Z.ltb_ge in E].
  - split; [|split; [|split]]; try (intros; lia).
    + intros Hk. split; [lia|]. intros Hnz.
      apply zero_among_selected; [exact Hnd|exact Hin|lia].
    + intros Hk. apply Hall. lia.
  - split; [|split; [|split]]; try (intros; lia).
    intros ->. apply Hall. cbn [Z.opp Z.to_nat]. lia.
Qed.

(** Five top words asked of a row over three terms. *)
Lemma top_words_never_fails_witness :
  (nth_error [single_term_row] 0 = None ->
   top_words insertion_argsort [single_term_row] 0 5 = Raise IndexError) /\
  (forall row, nth_error [single_term_row] 0 = Some row ->
     exists l, top_words insertion_argsort [single_term_row] 0 5 = Ok l /\
       NoDup l /\
       (forall a, In a l -> (a < length row)%nat) /\
       StronglySorted (fun a b => nth b row 0 <= nth a row 0) l /\
       (forall a b, In a l -> (b < length row)%nat -> ~ In b l ->
          nth b row 0 <= nth a row 0) /\
       ((0 < 5 <= Z.of_nat (length row))%Z ->
          length l = Z.to_nat 5 /\
          ((nonzero_count row < Z.to_nat 5)%nat -> Exists (fun a => nth a row 0 = 0) l)) /\
       ((Z.of_nat (length row) < 5)%Z -> Permutation l (seq 0 (length row))) /\
       (5%Z = 0%Z -> Permutation l (seq 0 (length row))) /\
       ((5 < 0)%Z -> length l = (length row - Z.to_nat (- 5))%nat)).
Proof.
  apply (top_words_never_fails insertion_argsort [single_term_row] 0 5).
  exact insertion_argsort_contract.
Defined.

(** C6 as stated fails: [k] larger than the vocabulary, a negative [k],
    and a row with fewer than [k] non-zero entries all return indices.
    The row has no two equal values, so that every argsort returns
    these. *)
Lemma invalid_k_counterexample :
  top_words insertion_argsort [[0; 0.5]] 0 3 = Ok [1; 0]%nat /\
  top_words insertion_argsort [[0; 0.5]] 0 (-1) = Ok [1]%nat /\
  top_words insertion_argsort [[0; 0.5]] 0 2 = Ok [1; 0]%nat.
Proof.
  unfold top_words, getrow. cbn [nth_error bind].
  repeat split; f_equal; eval_top_k.
Qed.

(** ** The small run, evaluated *)

(** The first document is predicted negative (class 0, sign [+1]), the
    second positive (class 1, sign [-1]). *)
Example prediction_sign_example : prediction_sign predictions_example = [1; -1].
Proof.
  unfold prediction_sign, predictions_example, argmax, sign.
  cbn [map argmax_from].
  destruct (Rlt_dec 0.9 0.1); [lra|].
  destruct (Rlt_dec 0.2 0.8); [|lra].
  change (INR 0) with 0. change (INR 1) with 1.
  destruct (Rlt_dec (0 - / 2) 0); [|lra].
  destruct (Rlt_dec (1 - / 2) 0); [lra|].
  destruct (Rlt_dec 0 (1 - / 2)); [|lra].
  repeat f_equal; lra.
Qed.

(** The notebook's [top_what = 3] on a row over three terms: every index,
    the scored term first, the two others as the insertion sort leaves
    them. *)
Example top_words_example :
  top_words insertion_argsort [single_term_row] 0 top_what = Ok [1; 2; 0]%nat.
Proof.
  unfold top_words, getrow, top_what, single_term_row. cbn [nth_error bind].
  f_equal. eval_top_k.
Qed.

(** Every prediction sign is [+1] (class 0 predicted) or [-1]. *)
Lemma prediction_sign_values (P : matrix) :
  Forall (fun s => s = 1 \/ s = -1) (prediction_sign P).
Proof.
  unfold prediction_sign. apply Forall_forall. intros s Hs.
  apply in_map_iff in Hs. destruct Hs as (r & <- & _).
  unfold sign. destruct (argmax r) as [|n].
  - change (INR 0) with 0. left.
    destruct (Rlt_dec (0 - / 2) 0); lra.
  - right. pose proof (pos_INR n) as Hn. rewrite S_INR.
    destruct (Rlt_dec (INR n + 1 - / 2) 0); [lra|].
    destruct (Rlt_dec 0 (INR n + 1 - / 2)); lra.
Qed.

(** * Further properties *)

(** ** Predicted class and its probability *)

Lemma argmax_from_spec (r pre : vec) (best i : nat) (bv : R) :
  length pre = i -> (best < i)%nat -> nth best pre 0 = bv ->
  (forall t, (t < i)%nat -> nth t pre 0 <= bv) ->
  (forall t, (t < best)%nat -> nth t pre 0 < bv) ->
  let j := argmax_from best bv i r in
  (j < length (pre ++ r))%nat /\
  nth j (pre ++ r) 0 = fold_left Rmax r bv /\
  (forall t, (t < length (pre ++ r))%nat -> nth t (pre ++ r) 0 <= nth j (pre ++ r) 0) /\
  (forall t, (t < j)%nat -> nth t (pre ++ r) 0 < nth j (pre ++ r) 0).
Proof.
  revert pre best i bv. induction r as [|x r IH]; intros pre best i bv Hl Hb Hv Hle Hlt.
  - cbn [argmax_from fold_left]. rewrite app_nil_r, Hl, Hv.
    repeat split; auto.
  - cbn [argmax_from fold_left].
    replace (pre ++ x :: r) with ((pre ++ [x]) ++ r) by (rewrite <- app_assoc; reflexivity).
    assert (Hl' : length (pre ++ [x]) = S i) by (rewrite length_app; simpl; lia).
    assert (Hx : nth i (pre ++ [x]) 0 = x).
    { rewrite app_nth2 by lia. rewrite Hl, Nat.sub_diag. reflexivity. }
    assert (Hpre : forall t, (t < i)%nat -> nth t (pre ++ [x]) 0 = nth t pre 0).
    { intros t Ht. apply app_nth1. lia. }
    destruct (Rlt_dec bv x) as [Hbx|Hbx].
    + replace (Rmax bv x) with x by (symmetry; apply Rmax_right; lra).
      apply IH; auto.
      * intros t Ht. destruct (Nat.eq_dec t i) as [->|Hne]; [rewrite Hx; lra|].
        rewrite Hpre by lia. specialize (Hle t ltac:(lia)). lra.
      * intros t Ht. rewrite Hpre by lia. specialize (Hle t Ht). lra.
    + replace (Rmax bv x) with bv by (symmetry; apply Rmax_left; lra).
      apply IH; auto.
      * rewrite Hpre by lia. exact Hv.
      * intros t Ht. destruct (Nat.eq_dec t i) as [->|Hne]; [rewrite Hx; lra|].
        rewrite Hpre by lia. apply Hle. lia.
      * intros t Ht. rewrite Hpre by lia. apply Hlt. exact Ht.
Qed.

(** [argmax] is the first index of the largest entry, and [max] is the
    entry there. *)
Lemma argmax_first_max (r : vec) :
  r <> [] ->
  (argmax r < length r)%nat /\
  amax r = Ok (nth (argmax r) r 0) /\
  (forall t, (t < length r)%nat -> nth t r 0 <= nth (argmax r) r 0) /\
  (forall t, (t < argmax r)%nat -> nth t r 0 < nth (argmax r) r 0).
Proof.
  intros Hne. destruct r as [|x r]; [congruence|].
  assert (Hle : forall t, (t < 1)%nat -> nth t [x] 0 <= x).
  { intros t Ht. replace t with 0%nat by lia. simpl. lra. }
  assert (Hlt : forall t, (t < 0)%nat -> nth t [x] 0 < x) by (intros t Ht; lia).
  destruct (argmax_from_spec r [x] 0 1 x eq_refl ltac:(lia) eq_refl Hle Hlt)
    as (H1 & H2 & H3 & H4).
  cbn [app] in *. unfold argmax, amax.
  split; [exact H1|]. split; [rewrite H2; reflexivity|]. split; assumption.
Qed.

Lemma mapM_ok (A B : Type) (f : A -> result B) (g : A -> B) (l : list A) :
  (forall a, In a l -> f a = Ok (g a)) -> mapM f l = Ok (map g l).
Proof.
  induction l as [|a l IH]; intros H; [reflexivity|].
  cbn [mapM map]. rewrite (H a (or_introl eq_refl)). cbn [bind].
  rewrite IH by (intros b Hb; apply H; right; exact Hb). reflexivity.
Qed.

Lemma sum_le_bound (M : R) (r : vec) :
  Forall (fun x => x <= M) r -> sum r <= INR (length r) * M.
Proof.
  induction 1 as [|x r Hx _ IH].
  - simpl. lra.
  - change (length (x :: r)) with (S (length r)). rewrite S_INR, sum_cons. lra.
Qed.

Lemma Forall_nth_R (Q : R -> Prop) (r : vec) :
  (forall t, (t < length r)%nat -> Q (nth t r 0)) -> Forall Q r.
Proof.
  intros H. apply Forall_forall. intros x Hx.
  destruct (In_nth r x 0 Hx) as (t & Ht & <-). apply H. exact Ht.
Qed.

(** X1: [prediction_proba_max] is returned for a prediction matrix with at
    least one class; entry [i] is the probability of the class [argmax]
    selects for document [i], no probability of the row exceeds it, and
    for a row summing to one over [k] classes it is at least [1/k]. *)
Theorem prediction_proba_max_spec (k : nat) (P : matrix) :
  rect k P -> (1 <= k)%nat ->
  exists m, prediction_proba_max P = Ok m /\ length m = length P /\
    forall i, (i < length P)%nat ->
      nth i m 0 = entry P i (argmax (nth i P [])) /\
      (forall j, (j < k)%nat -> entry P i j <= nth i m 0) /\
      (sum (nth i P []) = 1 -> / INR k <= nth i m 0).
Proof.
  intros Hr Hk.
  assert (Hrow : forall r, In r P -> r <> [] /\ length r = k).
  { intros r Hin. unfold rect in Hr. rewrite Forall_forall in Hr.
    pose proof (Hr r Hin) as Hl. split; [|exact Hl].
    intros ->. simpl in Hl. lia. }
  exists (map (fun r => nth (argmax r) r 0) P).
  split; [|split].
  - unfold prediction_proba_max. apply mapM_ok. intros r Hin.
    apply argmax_first_max, Hrow, Hin.
  - apply length_map.
  - intros i Hi.
    rewrite (nth_map_in_range _ _ _ i P []) by exact Hi.
    destruct (Hrow (nth i P []) (nth_In P [] Hi)) as [Hne Hl].
    destruct (argmax_first_max (nth i P []) Hne) as (_ & _ & Hmax & _).
    split; [reflexivity|]. split.
    + intros j Hj. apply Hmax. lia.
    + intros Hs.
      pose proof (sum_le_bound _ _ (Forall_nth_R _ _ Hmax)) as Hb.
      rewrite Hs, Hl in Hb.
      assert (Hp : 0 < INR k) by (apply lt_0_INR; lia).
      apply (Rmult_le_reg_l (INR k)); [exact Hp|].
      rewrite Rinv_r by lra. exact Hb.
Qed.

(** The maximal probabilities of the small run. *)
Lemma prediction_proba_max_spec_witness :
  exists m, prediction_proba_max predictions_example = Ok m /\
    length m = length predictions_example /\
    forall i, (i < length predictions_example)%nat ->
      nth i m 0 = entry predictions_example i (argmax (nth i predictions_example [])) /\
      (forall j, (j < 2)%nat -> entry predictions_example i j <= nth i m 0) /\
      (sum (nth i predictions_example []) = 1 -> / INR 2 <= nth i m 0).
Proof.
  apply (prediction_proba_max_spec 2 predictions_example).
  - repeat constructor.
  - lia.
Defined.

Lemma argmax_zero_iff (x : R) (r : vec) :
  argmax (x :: r) = 0%nat <-> Forall (fun y => y <= x) r.
Proof.
  destruct (argmax_first_max (x :: r) ltac:(discriminate)) as (Hlt & _ & Hmax & Hfirst).
  split.
  - intros H0. rewrite H0 in Hmax. apply Forall_nth_R. intros t Ht.
    apply (Hmax (S t)). simpl. lia.
  - intros Hall. destruct (argmax (x :: r)) as [|j] eqn:E; [reflexivity|exfalso].
    specialize (Hfirst 0%nat ltac:(lia)). cbn [nth] in Hfirst.
    rewrite Forall_forall in Hall.
    assert (Hin : In (nth j r 0) r) by (apply nth_In; simpl in Hlt; lia).
    specialize (Hall _ Hin). lra.
Qed.

(** X2: the prediction sign of a document is [+1] exactly when class 0
    has the largest probability of its row, ties included, and [-1]
    otherwise. *)
Theorem prediction_sign_predicted_class (P : matrix) (i : nat) (x : R) (r : vec) :
  nth_error P i = Some (x :: r) ->
  (Forall (fun y => y <= x) r -> nth i (prediction_sign P) 0 = 1) /\
  (~ Forall (fun y => y <= x) r -> nth i (prediction_sign P) 0 = -1).
Proof.
  intros Hrow.
  assert (Hi : (i < length P)%nat) by (apply nth_error_Some; congruence).
  assert (Hn : nth i P [] = x :: r) by (apply nth_error_nth; exact Hrow).
  unfold prediction_sign.
  rewrite (nth_map_in_range _ _ _ i P []) by exact Hi. rewrite Hn.
  pose proof (argmax_zero_iff x r) as Hz. unfold sign.
  split; intros H.
  - apply Hz in H. rewrite H. change (INR 0) with 0.
    destruct (Rlt_dec (0 - / 2) 0); lra.
  - destruct (argmax (x :: r)) as [|j]; [exfalso; apply H, Hz; reflexivity|].
    pose proof (pos_INR j) as Hj. rewrite S_INR.
    destruct (Rlt_dec (INR j + 1 - / 2) 0); [lra|].
    destruct (Rlt_dec 0 (INR j + 1 - / 2)); lra.
Qed.

(** The first document of the small run is predicted negative. *)
Lemma prediction_sign_predicted_class_witness :
  (Forall (fun y => y <= 0.9) [0.1] -> nth 0 (prediction_sign predictions_example) 0 = 1) /\
  (~ Forall (fun y => y <= 0.9) [0.1] -> nth 0 (prediction_sign predictions_example) 0 = -1).
Proof.
  apply (prediction_sign_predicted_class predictions_example 0 0.9 [0.1]).
  reflexivity.
Defined.

(** ** Patterns of a binary classifier *)

Lemma dot_map_opp (u v : vec) : dot (map Ropp u) v = - dot u v.
Proof.
  revert v. induction u as [|x u IH]; intros [|y v]; cbn [map];
    try (unfold dot; simpl; lra).
  rewrite !dot_cons, IH. ring.
Qed.

Lemma dot_const_r (a : R) (u v : vec) :
  length u = length v -> Forall (fun y => y = a) v -> dot u v = a * sum u.
Proof.
  revert v. induction u as [|x u IH]; intros [|y v] Hl Hv; try discriminate.
  - unfold dot. simpl. ring.
  - inversion Hv as [|? ? Hy Hv']; subst.
    rewrite dot_cons, sum_cons, (IH v) by (simpl in Hl; auto; lia). ring.
Qed.

Lemma mean_zero_sum (v : vec) : v <> [] -> mean v = 0 -> sum v = 0.
Proof.
  intros Hne H. pose proof (INR_length_pos v Hne) as Hp.
  unfold mean, Rdiv in H. apply Rmult_integral in H. destruct H as [H|H]; [exact H|].
  pose proof (Rinv_0_lt_compat _ Hp). lra.
Qed.

Lemma binary_second_column (P : matrix) :
  rect 2 P -> Forall (fun r => sum r = 1) P ->
  column 1 P = map (fun x => -1 * x + 1) (column 0 P).
Proof.
  intros Hr Hs. induction P as [|r P IH]; [reflexivity|].
  inversion Hr as [|? ? Hl Hr']; subst. inversion Hs as [|? ? Hsum Hs']; subst.
  cbn [column map]. f_equal; [|apply IH; assumption].
  destruct r as [|a [|b [|? ?]]]; try discriminate.
  cbn [nth]. rewrite !sum_cons in Hsum. simpl in Hsum. lra.
Qed.

(** For a two-class prediction matrix whose rows sum to one the two
    standardized columns, and so the two patterns, are opposite. *)
Lemma binary_patterns_aux (d : nat) (P X : matrix) :
  rect 2 P -> Forall (fun r => sum r = 1) P -> rect d X ->
  P <> [] -> length X = length P -> (1 <= d)%nat ->
  exists p, pattern_class 0 P X = Ok p /\ pattern_class 1 P X = Ok (map Ropp p) /\
            length p = d.
Proof.
  intros HrP Hs HrX HP Hlen Hd.
  destruct (pattern_class_ok 2 d 0 P X HrP HrX HP Hlen ltac:(lia) Hd)
    as (LN & DS & HLN & HDS & _ & _ & Hc0 & _ & Hp0).
  destruct (pattern_class_ok 2 d 1 P X HrP HrX HP Hlen ltac:(lia) Hd)
    as (LN' & DS' & HLN' & HDS' & _ & _ & Hc1 & _ & Hp1).
  rewrite HLN in HLN'. injection HLN' as <-.
  rewrite HDS in HDS'. injection HDS' as <-.
  exists (map (fun j => dot (column 0 LN) (column j DS)) (seq 0 d)).
  split; [exact Hp0|]. split; [|rewrite length_map, length_seq; reflexivity].
  rewrite Hp1. f_equal. rewrite map_map. apply map_ext. intros j.
  rewrite <- dot_map_opp. f_equal.
  rewrite Hc1, Hc0, (binary_second_column P HrP Hs).
  pose proof (column_nonempty 0 P HP) as Hne.
  rewrite mean_affine by exact Hne.
  assert (Hsc : scale_of (map (fun x => -1 * x + 1) (column 0 P)) = scale_of (column 0 P)).
  { unfold scale_of. rewrite var_affine by exact Hne. f_equal. f_equal. ring. }
  rewrite Hsc, !map_map. apply map_ext. intros x.
  pose proof (scale_of_pos (column 0 P)). field. lra.
Qed.

(** X3: for a two-class prediction matrix whose rows sum to one, the
    pattern of class 1 is the elementwise negation of the pattern of
    class 0, the one the notebook computes. *)
Theorem binary_patterns_opposite (d : nat) (P X : matrix) :
  rect 2 P -> Forall (fun r => sum r = 1) P -> rect d X ->
  P <> [] -> length X = length P -> (1 <= d)%nat ->
  exists p, pattern P X = Ok p /\ pattern_class 1 P X = Ok (map Ropp p).
Proof.
  intros HrP Hs HrX HP Hlen Hd.
  destruct (binary_patterns_aux d P X HrP Hs HrX HP Hlen Hd) as (p & H0 & H1 & _).
  exists p. split; assumption.
Qed.

Lemma predictions_example_sums : Forall (fun r => sum r = 1) predictions_example.
Proof. unfold predictions_example. repeat constructor; simpl; lra. Qed.

(** The two patterns of the small run. *)
Lemma binary_patterns_opposite_witness :
  exists p, pattern predictions_example features_example = Ok p /\
            pattern_class 1 predictions_example features_example = Ok (map Ropp p).
Proof.
  apply (binary_patterns_opposite 3 predictions_example features_example).
  - repeat constructor.
  - apply predictions_example_sums.
  - repeat constructor.
  - discriminate.
  - reflexivity.
  - lia.
Defined.

(** ** Terms of constant weight *)

Lemma pattern_entry_constant_column (k d c j : nat) (a : R) (P X : matrix) :
  rect k P -> rect d X -> P <> [] -> length X = length P ->
  (c < k)%nat -> (1 <= d)%nat -> (j < d)%nat ->
  Forall (fun x => x = a) (column j X) ->
  exists p, pattern_class c P X = Ok p /\ length p = d /\ nth j p 0 = 0.
Proof.
  intros HrP HrX HP Hlen Hc Hd Hj Hconst.
  destruct (pattern_class_ok k d c P X HrP HrX HP Hlen Hc Hd)
    as (LN & DS & _ & _ & HlLN & HlDS & HcP & HcX & Hp).
  exists (map (fun j => dot (column c LN) (column j DS)) (seq 0 d)).
  split; [exact Hp|]. split; [rewrite length_map, length_seq; reflexivity|].
  rewrite nth_map_seq by exact Hj.
  rewrite (dot_const_r ((a - 0) / scale_of (column j X))).
  - destruct (standardized_column (column c P) (column_nonempty c P HP)) as (Hm & _).
    cbv zeta in Hm. rewrite <- HcP in Hm.
    rewrite (mean_zero_sum _ (column_nonempty c LN (length_nonempty _ P LN HP HlLN)) Hm).
    ring.
  - rewrite !column_length. lia.
  - rewrite (HcX j Hj). apply Forall_forall. intros y Hy.
    apply in_map_iff in Hy. destruct Hy as (x & <- & Hx).
    rewrite Forall_forall in Hconst. rewrite (Hconst x Hx). reflexivity.
Qed.

(** X4: a term with the same weight in every document, in particular a
    term that occurs in no document, has pattern value 0 for every
    class. *)
Theorem constant_term_pattern_zero (k d c j : nat) (a : R) (P X : matrix) :
  rect k P -> rect d X -> P <> [] -> length X = length P ->
  (c < k)%nat -> (1 <= d)%nat -> (j < d)%nat ->
  Forall (fun x => x = a) (column j X) ->
  exists p, pattern_class c P X = Ok p /\ nth j p 0 = 0.
Proof.
  intros HrP HrX HP Hlen Hc Hd Hj Hconst.
  destruct (pattern_entry_constant_column k d c j a P X) as (p & Hp & _ & H0); auto.
  exists p. split; assumption.
Qed.

(** The third term of the small run has weight 3 in both documents. *)
Lemma constant_term_pattern_zero_witness :
  exists p, pattern_class 0 predictions_example features_example = Ok p /\ nth 2 p 0 = 0.
Proof.
  apply (constant_term_pattern_zero 2 3 0 2 3 predictions_example features_example).
  - repeat constructor.
  - repeat constructor.
  - discriminate.
  - reflexivity.
  - lia.
  - lia.
  - lia.
  - repeat constructor.
Defined.

(** ** Word scores from the raw features *)

Lemma data_scaled_inv (X DS : matrix) :
  data_scaled X = Ok DS -> DS = map (transform_row false (mean_ X) (scale_ X)) X.
Proof.
  unfold data_scaled, fit_transform.
  destruct ((nrows X =? 0)%nat || (ncols X =? 0)%nat); [discriminate|].
  intros H. injection H as <-. reflexivity.
Qed.

Lemma gt0_data_scaled (d : nat) (X DS : matrix) :
  rect d X -> data_scaled X = Ok DS -> gt0 DS = gt0 X.
Proof.
  intros Hr HDS.
  destruct (fit_transform_inv false X DS HDS) as [HX Hd].
  rewrite (data_scaled_inv X DS HDS).
  apply (gt0_column_scaled d); [exact Hr|].
  intros j Hj. rewrite nth_scale_ by (rewrite (rect_ncols d X Hr HX); exact Hj).
  apply scale_of_pos.
Qed.

(** The word scores in terms of the raw feature matrix. *)
Lemma word_scores_ok (k d : nat) (P X : matrix) :
  rect k P -> rect d X -> P <> [] -> length X = length P ->
  (1 <= k)%nat -> (1 <= d)%nat ->
  exists p W,
    pattern_class 0 P X = Ok p /\ length p = d /\
    word_scores P X = Ok W /\ length W = length X /\ rect d W /\
    forall i j, (i < length X)%nat -> (j < d)%nat ->
      entry W i j
      = nth i (prediction_sign P) 0
        * (if Rlt_dec 0 (entry X i j) then 1 else 0)
        * nth j p 0.
Proof.
  intros HrP HrX HP Hlen Hk Hd.
  destruct (pattern_class_ok k d 0 P X HrP HrX HP Hlen ltac:(lia) Hd)
    as (LN & DS & _ & HDS & _ & HlDS & _ & _ & Hp).
  destruct (fit_transform_shape false d X DS HDS HrX) as [HrDS _].
  set (p := map (fun j => dot (column 0 LN) (column j DS)) (seq 0 d)) in *.
  assert (Hlp : length p = d) by (unfold p; rewrite length_map, length_seq; reflexivity).
  assert (HX : X <> []) by (apply (length_nonempty _ P); assumption).
  assert (HDSne : DS <> []) by (apply (length_nonempty _ X); assumption).
  destruct (word_scores_of_spec d (prediction_sign P) p DS HrDS HDSne)
    as (W & HW & HlW & HrW & He); [unfold prediction_sign; rewrite length_map; lia|exact Hlp|].
  exists p, W. split; [exact Hp|]. split; [exact Hlp|]. split.
  { unfold word_scores. rewrite HDS. cbn [bind]. unfold pattern. rewrite Hp. exact HW. }
  split; [lia|]. split; [exact HrW|].
  intros i j Hi Hj. rewrite He by lia.
  rewrite <- !entry_gt0, (gt0_data_scaled d X DS HrX HDS). reflexivity.
Qed.

Lemma prediction_sign_nth (P : matrix) (i : nat) :
  (i < length P)%nat ->
  nth i (prediction_sign P) 0 = if (argmax (nth i P []) =? 0)%nat then 1 else -1.
Proof.
  intros Hi. unfold prediction_sign.
  rewrite (nth_map_in_range _ _ _ i P []) by exact Hi.
  unfold sign. destruct (argmax (nth i P [])) as [|n]; cbn [Nat.eqb].
  - change (INR 0) with 0. destruct (Rlt_dec (0 - / 2) 0); lra.
  - pose proof (pos_INR n) as Hn. rewrite S_INR.
    destruct (Rlt_dec (INR n + 1 - / 2) 0); [lra|].
    destruct (Rlt_dec 0 (INR n + 1 - / 2)); lra.
Qed.

(** X5: for a two-class prediction matrix whose rows sum to one, the
    relevance of a term for a document is the pattern value of the class
    predicted for that document where the term occurs with positive
    weight, and zero elsewhere. *)
Theorem relevance_of_predicted_class (d : nat) (P X : matrix) :
  rect 2 P -> Forall (fun r => sum r = 1) P -> rect d X ->
  P <> [] -> length X = length P -> (1 <= d)%nat ->
  exists W, word_scores P X = Ok W /\
    forall i j, (i < length X)%nat -> (j < d)%nat ->
      exists q, pattern_class (argmax (nth i P [])) P X = Ok q /\
        entry W i j = (if Rlt_dec 0 (entry X i j) then 1 else 0) * nth j q 0.
Proof.
  intros HrP Hs HrX HP Hlen Hd.
  destruct (word_scores_ok 2 d P X HrP HrX HP Hlen ltac:(lia) Hd)
    as (p & W & Hp & Hlp & HW & _ & _ & He).
  destruct (binary_patterns_aux d P X HrP Hs HrX HP Hlen Hd) as (p' & Hp0 & Hp1 & _).
  rewrite Hp in Hp0. injection Hp0 as <-.
  exists W. split; [exact HW|]. intros i j Hi Hj.
  rewrite He, prediction_sign_nth by lia.
  assert (HiP : (i < length P)%nat) by lia.
  assert (Hrow : nth i P [] <> [] /\ length (nth i P []) = 2%nat).
  { unfold rect in HrP. rewrite Forall_forall in HrP.
    pose proof (HrP (nth i P []) (nth_In P [] HiP)) as Hl.
    split; [|exact Hl]. intros E. rewrite E in Hl. discriminate. }
  destruct Hrow as [Hne Hl].
  destruct (argmax_first_max _ Hne) as (Hlt & _).
  rewrite Hl in Hlt.
  destruct (argmax (nth i P [])) as [|[|n]]; [| |lia]; cbn [Nat.eqb].
  - exists p. split; [exact Hp|]. ring.
  - exists (map Ropp p). split; [exact Hp1|].
    rewrite (nth_map_default Ropp j p 0 0) by ring. ring.
Qed.

(** The word scores of the small run. *)
Lemma relevance_of_predicted_class_witness :
  exists W, word_scores predictions_example features_example = Ok W /\
    forall i j, (i < length features_example)%nat -> (j < 3)%nat ->
      exists q,
        pattern_class (argmax (nth i predictions_example [])) predictions_example
          features_example = Ok q /\
        entry W i j
        = (if Rlt_dec 0 (entry features_example i j) then 1 else 0) * nth j q 0.
Proof.
  apply (relevance_of_predicted_class 3 predictions_example features_example).
  - repeat constructor.
  - apply predictions_example_sums.
  - repeat constructor.
  - discriminate.
  - reflexivity.
  - lia.
Defined.

(** ** Rescaling the feature matrix *)

Lemma column_scal (a : R) (j : nat) (X : matrix) :
  column j (map (map (Rmult a)) X) = map (Rmult a) (column j X).
Proof.
  unfold column. rewrite !map_map. apply map_ext. intros r.
  apply nth_map_default. ring.
Qed.

Lemma var_scal (a : R) (v : vec) : v <> [] -> var (map (Rmult a) v) = a * a * var v.
Proof.
  intros Hne. rewrite (map_ext _ (fun x => a * x + 0)) by (intros x; ring).
  apply var_affine. exact Hne.
Qed.

Lemma scale_of_scal (a : R) (v : vec) :
  0 < a -> v <> [] -> var v <> 0 -> scale_of (map (Rmult a) v) = a * scale_of v.
Proof.
  intros Ha Hne Hv. pose proof (scale_of_pos v) as Hs.
  apply scale_of_eq.
  - apply Rmult_lt_0_compat; assumption.
  - rewrite var_scal by exact Hne. rewrite <- (scale_of_sqr v Hv). ring.
Qed.

Lemma gt0_scal (a : R) (X : matrix) : 0 < a -> gt0 (map (map (Rmult a)) X) = gt0 X.
Proof.
  intros Ha. unfold gt0. rewrite map_map. apply map_ext. intros r.
  rewrite map_map. apply map_ext. intros x.
  destruct (Rlt_dec 0 (a * x)) as [H|H]; destruct (Rlt_dec 0 x) as [H'|H'];
    try reflexivity; exfalso.
  - apply H'. apply (Rmult_lt_reg_l a); [exact Ha|]. rewrite Rmult_0_r. exact H.
  - apply H. apply Rmult_lt_0_compat; assumption.
Qed.

Lemma dot_const_image (f : R -> R) (a : R) (u v : vec) :
  sum u = 0 -> length u = length v -> Forall (fun x => x = a) v -> dot u (map f v) = 0.
Proof.
  intros Hs Hl Hv. rewrite (dot_const_r (f a)).
  - rewrite Hs. ring.
  - rewrite length_map. exact Hl.
  - apply Forall_forall. intros y Hy. apply in_map_iff in Hy.
    destruct Hy as (x & <- & Hx). rewrite Forall_forall in Hv.
    rewrite (Hv x Hx). reflexivity.
Qed.

(** X6: multiplying every feature value by the same positive factor
    changes neither the pattern of any class nor the word scores. *)
Theorem rescaling_invariance (k d c : nat) (a : R) (P X : matrix) :
  0 < a ->
  rect k P -> rect d X -> P <> [] -> length X = length P ->
  (c < k)%nat -> (1 <= d)%nat ->
  exists p W,
    pattern_class c P X = Ok p /\
    pattern_class c P (map (map (Rmult a)) X) = Ok p /\
    word_scores P X = Ok W /\
    word_scores P (map (map (Rmult a)) X) = Ok W.
Proof.
  intros Ha HrP HrX HP Hlen Hc Hd.
  set (X' := map (map (Rmult a)) X).
  assert (HrX' : rect d X') by (apply map_rect; [intros r; apply length_map|exact HrX]).
  assert (Hlen' : length X' = length P) by (unfold X'; rewrite length_map; exact Hlen).
  assert (HX : X <> []) by (apply (length_nonempty _ P); assumption).
  assert (Hpat : forall c0, (c0 < k)%nat ->
            exists p, pattern_class c0 P X = Ok p /\ pattern_class c0 P X' = Ok p).
  { intros c0 Hc0.
    destruct (pattern_class_ok k d c0 P X HrP HrX HP Hlen Hc0 Hd)
      as (LN & DS & HLN & _ & HlLN & HlDS & HcP & HcX & Hp).
    destruct (pattern_class_ok k d c0 P X' HrP HrX' HP Hlen' Hc0 Hd)
      as (LN' & DS' & HLN' & _ & _ & HlDS' & _ & HcX' & Hp').
    rewrite HLN in HLN'. injection HLN' as <-.
    exists (map (fun j => dot (column c0 LN) (column j DS)) (seq 0 d)).
    split; [exact Hp|]. rewrite Hp'. f_equal. apply map_ext_in. intros j Hj.
    apply in_seq in Hj.
    rewrite (HcX j), (HcX' j) by lia. unfold X'. rewrite column_scal.
    pose proof (column_nonempty j X HX) as Hne.
    destruct (Req_dec_T (var (column j X)) 0) as [E|E].
    - assert (Hsum : sum (column c0 LN) = 0).
      { destruct (standardized_column (column c0 P) (column_nonempty c0 P HP)) as (Hm & _).
        cbv zeta in Hm. rewrite <- HcP in Hm.
        apply mean_zero_sum; [|exact Hm].
        apply column_nonempty, (length_nonempty _ P); assumption. }
      pose proof (var_zero_const _ Hne E) as Hconst.
      rewrite map_map.
      rewrite !(dot_const_image _ (mean (column j X))); auto;
        rewrite !column_length; lia.
    - rewrite (scale_of_scal a _ Ha Hne E), map_map. f_equal.
      apply map_ext. intros x. pose proof (scale_of_pos (column j X)). field. lra. }
  destruct (Hpat c Hc) as (p & Hp & Hp').
  destruct (word_scores_ok k d P X HrP HrX HP Hlen ltac:(lia) Hd)
    as (p0 & W & Hp0 & _ & HW & _).
  destruct (Hpat 0%nat ltac:(lia)) as (q & Hq & Hq').
  exists p, W. split; [exact Hp|]. split; [exact Hp'|]. split; [exact HW|].
  rewrite <- HW. unfold word_scores, pattern. rewrite Hq, Hq'.
  destruct (fit_transform_spec false d X HrX HX Hd) as (DS & HDS & _).
  destruct (fit_transform_spec false d X' HrX' ltac:(apply (length_nonempty _ P); assumption) Hd)
    as (DS' & HDS' & _).
  unfold data_scaled. rewrite HDS, HDS'. cbn [bind].
  apply word_scores_of_gt0.
  rewrite (gt0_data_scaled d X' DS' HrX' HDS'), (gt0_data_scaled d X DS HrX HDS).
  apply gt0_scal. exact Ha.
Qed.

(** Doubling the weights of the small run. *)
Lemma rescaling_invariance_witness :
  exists p W,
    pattern_class 0 predictions_example features_example = Ok p /\
    pattern_class 0 predictions_example (map (map (Rmult 2)) features_example) = Ok p /\
    word_scores predictions_example features_example = Ok W /\
    word_scores predictions_example (map (map (Rmult 2)) features_example) = Ok W.
Proof.
  apply (rescaling_invariance 2 3 0 2 predictions_example features_example).
  - lra.
  - repeat constructor.
  - repeat constructor.
  - discriminate.
  - reflexivity.
  - lia.
  - lia.
Defined.

(** ** The vocabulary *)

Section VocabularyFacts.

Variable W : Type.
Implicit Types (d : dict W) (voc : list (W * nat)).

Lemma dict_get_set (k i : nat) (w : W) d :
  dict_get i (dict_set k w d) = if (k =? i)%nat then Some w else dict_get i d.
Proof.
  induction d as [|[k' w'] d IH]; cbn [dict_set dict_get].
  - reflexivity.
  - destruct (k' =? k)%nat eqn:E; cbn [dict_get].
    + apply Nat.eqb_eq in E. subst k'. destruct (k =? i)%nat; reflexivity.
    + destruct (k' =? i)%nat eqn:E'; [|exact IH].
      apply Nat.eqb_eq in E'. subst k'.
      rewrite Nat.eqb_sym, E. reflexivity.
Qed.

Lemma dict_get_fold (i : nat) voc d :
  dict_get i (fold_left (fun d wi => dict_set (snd wi) (fst wi) d) voc d)
  = match last_word i voc with
    | Some w => Some w
    | None => dict_get i d
    end.
Proof.
  revert d. induction voc as [|[w j] voc IH]; intros d; [reflexivity|].
  cbn [fold_left last_word fst snd]. rewrite IH, dict_get_set.
  destruct (last_word i voc); [reflexivity|].
  destruct (j =? i)%nat; reflexivity.
Qed.

Lemma dict_get_idx2word (i : nat) voc : dict_get i (idx2word voc) = last_word i voc.
Proof.
  unfold idx2word. rewrite dict_get_fold.
  destruct (last_word i voc); reflexivity.
Qed.

Lemma last_word_In (i : nat) (w : W) voc : last_word i voc = Some w -> In (w, i) voc.
Proof.
  induction voc as [|[w' j] voc IH]; cbn [last_word]; [discriminate|].
  destruct (last_word i voc) as [w0|].
  - intros H. injection H as <-. right. apply IH. reflexivity.
  - destruct (j =? i)%nat eqn:E; [|discriminate].
    apply Nat.eqb_eq in E. intros H. injection H as <-. left. subst. reflexivity.
Qed.

Lemma last_word_None (i : nat) voc : last_word i voc = None <-> ~ In i (map snd voc).
Proof.
  induction voc as [|[w j] voc IH]; cbn [last_word map snd].
  - split; [intros _ []|reflexivity].
  - destruct (last_word i voc) as [w0|] eqn:E0.
    + split; [discriminate|]. intros H. exfalso. apply H. right.
      apply (in_map snd voc (w0, i)), last_word_In, E0.
    + destruct (j =? i)%nat eqn:E.
      * apply Nat.eqb_eq in E. split; [discriminate|].
        intros H. exfalso. apply H. left. exact E.
      * apply Nat.eqb_neq in E. split; [|reflexivity].
        intros _ [H|H]; [congruence|]. apply (proj1 IH); [reflexivity|exact H].
Qed.

Lemma last_word_NoDup (i : nat) (w : W) voc :
  NoDup (map snd voc) -> In (w, i) voc -> last_word i voc = Some w.
Proof.
  induction voc as [|[w' j] voc IH]; cbn [map snd last_word]; intros Hnd Hin; [destruct Hin|].
  inversion Hnd as [|? ? Hj Hnd']; subst.
  destruct Hin as [E|Hin].
  - injection E as -> ->.
    rewrite (proj2 (last_word_None i voc) Hj), Nat.eqb_refl. reflexivity.
  - rewrite (IH Hnd' Hin). reflexivity.
Qed.

(** X7: [idx2word] inverts the vocabulary: a lookup that succeeds
    returns a word the vocabulary maps to that index, a lookup fails
    exactly on the indices the vocabulary does not use, and when no two
    words share an index every word is found back under its index. *)
Theorem idx2word_inverse voc :
  (forall i w, dict_get i (idx2word voc) = Some w -> In (w, i) voc) /\
  (forall i, dict_get i (idx2word voc) = None <-> ~ In i (map snd voc)) /\
  (NoDup (map snd voc) ->
   forall i w, In (w, i) voc -> dict_get i (idx2word voc) = Some w).
Proof.
  split; [|split].
  - intros i w. rewrite dict_get_idx2word. apply last_word_In.
  - intros i. rewrite dict_get_idx2word. apply last_word_None.
  - intros Hnd i w Hin. rewrite dict_get_idx2word. apply last_word_NoDup; assumption.
Qed.

Lemma lookup_all_ok d (idxs : list nat) :
  (forall i, In i idxs -> dict_get i d <> None) ->
  exists ws, lookup_all d idxs = Some ws /\
             Forall2 (fun i w => dict_get i d = Some w) idxs ws.
Proof.
  induction idxs as [|i idxs IH]; intros H.
  - exists []. split; [reflexivity|constructor].
  - destruct IH as (ws & Hws & HF); [intros j Hj; apply H; right; exact Hj|].
    cbn [lookup_all]. destruct (dict_get i d) as [w|] eqn:E.
    + rewrite Hws. exists (w :: ws). split; [reflexivity|].
      constructor; assumption.
    + exfalso. apply (H i (or_introl eq_refl)). exact E.
Qed.


(** X8: when the vocabulary uses every index below the number of
    terms, looking up the top words of a relevance vector never raises
    [KeyError], whatever [k] and whatever the argsort: it returns one
    word per selected index, each a word the vocabulary maps to that
    index. *)
Theorem top_k_words_resolve (argsort : vec -> list nat) voc (v : vec) (k : Z) :
  is_argsort argsort ->
  (forall i, (i < length v)%nat -> In i (map snd voc)) ->
  exists ws, top_k_words argsort (idx2word voc) v k = Some ws /\
           length ws = top_count k (length v) /\
           Forall2 (fun i w => In (w, i) voc) (top_k argsort v k) ws.
Proof.
  intros Hsort Hcover.
  destruct (top_k_selection argsort v k Hsort) as (_ & Hin & _).
  destruct (lookup_all_ok (idx2word voc) (top_k argsort v k)) as (ws & Hws & HF).
  - intros i Hi E. rewrite dict_get_idx2word in E.
  apply last_word_None in E. apply E, Hcover, Hin, Hi.
  - exists ws. split; [exact Hws|]. split.
  + rewrite <- (Forall2_length HF). apply top_k_length. exact Hsort.
+ eapply Forall2_impl; [|exact HF]. cbv beta.
      intros i w Hg. rewrite dict_get_idx2word in Hg. apply last_word_In, Hg.
Qed.

End VocabularyFacts.

(** The inverse of the example vocabulary. *)
Lemma idx2word_inverse_witness :
  (forall i w, dict_get i (idx2word vocabulary_example) = Some w ->
     In (w, i) vocabulary_example) /\
  (forall i, dict_get i (idx2word vocabulary_example) = None
     <-> ~ In i (map snd vocabulary_example)) /\
  (NoDup (map snd vocabulary_example) ->
   forall i w, In (w, i) vocabulary_example ->
     dict_get i (idx2word vocabulary_example) = Some w).
Proof. exact (idx2word_inverse str vocabulary_example). Defined.

(** The notebook's three top words of a document with one scored term. *)
Lemma top_k_words_resolve_witness :
  exists ws, top_k_words insertion_argsort (idx2word vocabulary_example)
               single_term_row top_what = Some ws /\
             length ws = top_count top_what (length single_term_row) /\
             Forall2 (fun i w => In (w, i) vocabulary_example)
                     (top_k insertion_argsort single_term_row top_what) ws.
Proof.
  apply (top_k_words_resolve str insertion_argsort vocabulary_example
           single_term_row top_what).
  { exact insertion_argsort_contract. }
  intros i Hi. simpl in Hi.
  destruct i as [|[|[|i]]]; simpl; auto. lia.
Defined.

(** ** Highlighting *)

Section HighlightFacts.

Variable is_word : char -> bool.
Variable ieq : char -> char -> bool.

#[local] Abbreviation wordb := (wordb is_word).
#[local] Abbreviation boundary := (boundary is_word).
#[local] Abbreviation match_lit := (match_lit ieq).
#[local] Abbreviation match_at := (match_at is_word ieq).
#[local] Abbreviation sub_scan := (sub_scan is_word ieq).
#[local] Abbreviation highlight_word := (highlight_word is_word ieq).
#[local] Abbreviation ieq_str := (ieq_str ieq).

Lemma match_lit_complete (w m r : str) (prev : option char) :
  ieq_str w m = true -> match_lit w (m ++ r) prev = Some (last_opt prev m, r).
Proof.
  revert m prev. induction w as [|c w IH]; intros [|x m] prev H; try discriminate.
  - reflexivity.
  - cbn [ieq_str] in H. apply andb_prop in H. destruct H as [Hc Hm].
    cbn [app match_lit]. rewrite Hc. exact (IH m (Some x) Hm).
Qed.

Lemma match_lit_sound (w t : str) (prev last : option char) (r : str) :
  match_lit w t prev = Some (last, r) ->
  exists m, t = m ++ r /\ ieq_str w m = true /\ last = last_opt prev m.
Proof.
  revert t prev. induction w as [|c w IH]; intros t prev H.
  - cbn [match_lit] in H. injection H as <- <-. exists []. repeat split.
  - cbn [match_lit] in H. destruct t as [|x t]; [discriminate|].
    destruct (ieq c x) eqn:Hc; [|discriminate].
    destruct (IH t (Some x) H) as (m & -> & Hm & ->).
    exists (x :: m). split; [reflexivity|]. split; [|reflexivity].
    cbn [ieq_str]. rewrite Hc. exact Hm.
Qed.

Lemma ieq_str_length (w m : str) : ieq_str w m = true -> length m = length w.
Proof.
  revert m. induction w as [|c w IH]; intros [|x m] H; try discriminate; [reflexivity|].
  cbn [ieq_str] in H. apply andb_prop in H. destruct H as [_ H].
  cbn [length]. f_equal. apply IH. exact H.
Qed.

Lemma wordb_last_opt (prev : option char) (m : str) :
  m <> [] -> Forall (fun x => is_word x = true) m -> wordb (last_opt prev m) = true.
Proof.
  intros Hne Hm. revert prev. induction Hm as [|x m Hx Hm IH]; intros prev; [congruence|].
  unfold last_opt. cbn [fold_left]. destruct m as [|y m].
  - exact Hx.
  - apply IH. discriminate.
Qed.

Lemma match_at_nil (w : str) (prev : option char) : w <> [] -> match_at w prev [] = false.
Proof.
  intros Hne. unfold match_at. destruct w; [congruence|].
  cbn [match_lit]. apply andb_false_r.
Qed.

Lemma sub_scan_skip_all (w repl t : str) (prev : option char) :
  w <> [] -> sub_scan w repl prev (length t) t = [].
Proof.
  intros Hne. revert prev. induction t as [|x t IH]; intros prev.
  - cbn [length sub_scan]. rewrite match_at_nil by exact Hne. reflexivity.
  - cbn [length sub_scan]. apply IH.
Qed.

(** Inside a run of word characters nothing matches. *)
Lemma sub_scan_inside_word (w repl t : str) (p : char) :
  w <> [] -> is_word p = true -> Forall (fun x => is_word x = true) t ->
  sub_scan w repl (Some p) 0 t = t.
Proof.
  intros Hne Hp Ht. revert p Hp. induction Ht as [|x t Hx Ht IH]; intros p Hp.
  - cbn [sub_scan]. rewrite match_at_nil by exact Hne. reflexivity.
  - cbn [sub_scan]. unfold match_at at 1, boundary at 1.
    cbn [hd_error wordb]. rewrite Hp, Hx. cbn [Bool.eqb negb andb].
    f_equal. apply IH. exact Hx.
Qed.

Lemma match_at_token (w t : str) :
  w <> [] -> Forall (fun x => is_word x = true) t ->
  match_at w None t = ieq_str w t.
Proof.
  intros Hne Ht.
  destruct (ieq_str w t) eqn:E.
  - pose proof (ieq_str_length w t E) as Hl.
    assert (Htne : t <> []) by (intros ->; destruct w; [congruence|discriminate]).
    unfold match_at.
    pose proof (match_lit_complete w t [] None E) as Hm. rewrite app_nil_r in Hm.
    rewrite Hm. unfold boundary. cbn [hd_error wordb].
    rewrite (wordb_last_opt None t Htne Ht).
    destruct t as [|x t]; [congruence|]. inversion Ht; subst.
    cbn [hd_error wordb]. rewrite H1. reflexivity.
  - unfold match_at. destruct (match_lit w t None) as [[last r]|] eqn:Hm;
      [|apply andb_false_r].
    destruct (match_lit_sound w t None last r Hm) as (m & -> & Hw & ->).
    apply Forall_app in Ht. destruct Ht as [Hmw Hr].
    assert (Hmne : m <> []).
    { intros ->. destruct w; [congruence|discriminate]. }
    destruct r as [|y r].
    + rewrite app_nil_r in E. congruence.
    + inversion Hr; subst. unfold boundary at 2. cbn [hd_error wordb].
      rewrite (wordb_last_opt None m Hmne Hmw), H1. apply andb_false_r.
Qed.

(** X9: in a text that is a single run of word characters, the word is
    highlighted exactly when the whole text equals it ignoring case;
    the highlighted text is then [<mark>word</mark>] with the spelling
    of the vocabulary, and otherwise the text is unchanged. *)
Theorem highlight_word_token (w t : str) :
  w <> [] -> Forall (fun c => is_word c = true) w ->
  Forall (fun x => is_word x = true) t ->
  highlight_word w t
  = if ieq_str w t then mark_open ++ w ++ mark_close else t.
Proof.
  intros Hne _ Ht. unfold highlight_word.
  destruct t as [|x t].
  - cbn [sub_scan]. rewrite match_at_nil by exact Hne.
    destruct w; [congruence|reflexivity].
  - cbn [sub_scan]. rewrite (match_at_token w (x :: t) Hne Ht).
    inversion Ht as [|? ? Hx Ht']; subst.
    destruct (ieq_str w (x :: t)) eqn:E.
    + pose proof (ieq_str_length _ _ E) as Hl.
      destruct (length w) as [|n] eqn:En; [destruct w; [congruence|discriminate]|].
      cbn [length] in Hl. injection Hl as <-.
      rewrite sub_scan_skip_all by exact Hne. rewrite app_nil_r. reflexivity.
    + f_equal. apply sub_scan_inside_word; assumption.
Qed.

#[local] Abbreviation matches_word_chars := (matches_word_chars is_word ieq).

Lemma match_lit_prev (w t : str) (p p' : option char) :
  w <> [] -> match_lit w t p = match_lit w t p'.
Proof. intros Hne. destruct w; [congruence|]. reflexivity. Qed.

Lemma match_at_prev (w t : str) (p p' : option char) :
  w <> [] -> wordb p = wordb p' -> match_at w p t = match_at w p' t.
Proof.
  intros Hne Hp. unfold match_at, boundary at 1 3. rewrite Hp.
  rewrite (match_lit_prev w t p p' Hne). reflexivity.
Qed.

Lemma sub_scan_prev (w repl t : str) (p p' : option char) (skip : nat) :
  w <> [] -> wordb p = wordb p' -> sub_scan w repl p skip t = sub_scan w repl p' skip t.
Proof.
  intros Hne Hp. destruct t as [|x t]; destruct skip as [|n]; cbn [sub_scan];
    try reflexivity; rewrite (match_at_prev w _ p p' Hne Hp); reflexivity.
Qed.

Lemma match_lit_before_separator (w t1 t2 : str) (x : char) (prev : option char) :
  matches_word_chars w -> is_word x = false ->
  match_lit w (t1 ++ x :: t2) prev
  = match match_lit w t1 prev with
  | Some (last, r) => Some (last, r ++ x :: t2)
  | None => None
  end.
Proof.
  intros Hw Hx. revert t1 prev.
  induction Hw as [|c w Hc Hw IH]; intros t1 prev; [reflexivity|].
  destruct t1 as [|y t1]; cbn [app match_lit].
  - destruct (ieq c x) eqn:E; [|reflexivity].
  rewrite (Hc x E) in Hx. discriminate.
  - destruct (ieq c y); [apply IH|reflexivity].
Qed.

Lemma wordb_hd_separator (r t2 : str) (x : char) :
  is_word x = false -> wordb (hd_error (r ++ x :: t2)) = wordb (hd_error r).
Proof. intros Hx. destruct r; [exact Hx|reflexivity]. Qed.

Lemma match_at_before_separator (w t1 t2 : str) (x : char) (prev : option char) :
  matches_word_chars w -> is_word x = false ->
  match_at w prev (t1 ++ x :: t2) = match_at w prev t1.
Proof.
  intros Hw Hx. unfold match_at, boundary.
  rewrite (match_lit_before_separator w t1 t2 x prev Hw Hx).
  rewrite (wordb_hd_separator t1 t2 x Hx).
  destruct (match_lit w t1 prev) as [[last r]|]; [|reflexivity].
  rewrite (wordb_hd_separator r t2 x Hx). reflexivity.
Qed.

Lemma match_at_length (w t : str) (prev : option char) :
  match_at w prev t = true -> (length w <= length t)%nat.
Proof.
  unfold match_at. intros H. apply andb_prop in H. destruct H as [_ H].
  destruct (match_lit w t prev) as [[last r]|] eqn:Hm; [|discriminate].
  destruct (match_lit_sound w t prev last r Hm) as (m & -> & Hw & _).
  rewrite length_app, (ieq_str_length w m Hw). lia.
Qed.

Lemma sub_scan_before_separator (w repl t1 t2 : str) (x : char)
      (prev : option char) (skip : nat) :
  w <> [] -> matches_word_chars w ->
  is_word x = false -> (skip <= length t1)%nat ->
  sub_scan w repl prev skip (t1 ++ x :: t2)
  = sub_scan w repl prev skip t1 ++ x :: sub_scan w repl None 0 t2.
Proof.
  intros Hne Hw Hx. revert prev skip.
  induction t1 as [|y t1 IH]; intros prev skip Hs.
  - assert (skip = 0)%nat as -> by (simpl in Hs; lia).
    pose proof (match_at_before_separator w [] t2 x prev Hw Hx) as Hm.
    cbn [app] in Hm. cbn [app sub_scan]. rewrite Hm.
    rewrite match_at_nil by exact Hne. cbn [app]. f_equal.
    apply sub_scan_prev; [exact Hne|exact Hx].
  - pose proof (match_at_before_separator w (y :: t1) t2 x prev Hw Hx) as Hm.
    cbn [app] in Hm. cbn [app sub_scan]. destruct skip as [|n].
    + rewrite Hm.
      destruct (match_at w prev (y :: t1)) eqn:E.
      * apply match_at_length in E.
        destruct (length w) as [|n] eqn:En; [destruct w; [congruence|discriminate]|].
        rewrite <- app_assoc. f_equal. apply IH. simpl in E. lia.
      * cbn [app]. f_equal. apply IH. lia.
    + apply IH. simpl in Hs. lia.
Qed.

Lemma highlight_word_separator (w t1 t2 : str) (x : char) :
  w <> [] -> matches_word_chars w -> is_word x = false ->
  highlight_word w (t1 ++ x :: t2) = highlight_word w t1 ++ x :: highlight_word w t2.
Proof.
  intros Hne Hw Hx. unfold highlight_word.
  apply sub_scan_before_separator; auto. lia.
Qed.

(** X10: when every top word is made of word characters that match
    word characters only when case is ignored, highlighting works token
    by token: across a character that is not a word character, the loop
    over the top words highlights the text on its left and the text on
    its right independently. *)
Theorem highlight_separator (words : list str) (t1 t2 : str) (x : char) :
  Forall (fun w => w <> [] /\ Forall (fun c => is_word c = true) w
                 /\ matches_word_chars w) words ->
  is_word x = false ->
  highlight is_word ieq words (t1 ++ x :: t2)
  = highlight is_word ieq words t1 ++ x :: highlight is_word ieq words t2.
Proof.
  intros Hws Hx. revert t1 t2.
  induction Hws as [|w words (Hne & _ & Hw) _ IH]; intros t1 t2; [reflexivity|].
  unfold highlight in *. cbn [fold_left].
  rewrite (highlight_word_separator w t1 t2 x Hne Hw Hx). apply IH.
Qed.

Lemma count_scan_no_prefix (lit t : str) (x : char) :
  prefixb lit (x :: t) = false -> count_scan lit 0 (x :: t) = count_scan lit 0 t.
Proof. intros H. cbn [count_scan]. rewrite H. reflexivity. Qed.

Lemma count_scan_prefix (lit t : str) (x : char) :
  prefixb lit (x :: t) = true ->
  count_scan lit 0 (x :: t) = S (count_scan lit (length lit - 1) t).
Proof. intros H. cbn [count_scan]. rewrite H. reflexivity. Qed.

Lemma count_scan_skipped (lit u t : str) :
  count_scan lit (length u) (u ++ t) = count_scan lit 0 t.
Proof. induction u as [|x u IH]; [reflexivity|]. cbn [length app count_scan]. exact IH. Qed.

Lemma count_scan_skip_char (x : char) (t : str) :
  x <> 60%nat -> count_scan mark_open 0 (x :: t) = count_scan mark_open 0 t.
Proof.
  intros Hx. apply count_scan_no_prefix. unfold mark_open. cbn [prefixb].
  destruct (Nat.eqb_spec 60 x) as [E|_]; [congruence|]. reflexivity.
Qed.

Lemma count_scan_skip_chars (u t : str) :
  ~ In 60%nat u -> count_scan mark_open 0 (u ++ t) = count_scan mark_open 0 t.
Proof.
  induction u as [|x u IH]; intros Hu; [reflexivity|].
  cbn [app]. rewrite count_scan_skip_char by (intros ->; apply Hu; left; reflexivity).
  apply IH. intros H. apply Hu. right. exact H.
Qed.

Lemma count_scan_mark (w t : str) :
  ~ In 60%nat w ->
  count_scan mark_open 0 (mark_open ++ w ++ mark_close ++ t)
  = S (count_scan mark_open 0 t).
Proof.
  intros Hw.
  change (mark_open ++ w ++ mark_close ++ t)
    with (60%nat :: [109; 97; 114; 107; 62]%nat ++ w ++ mark_close ++ t).
  rewrite count_scan_prefix by reflexivity. f_equal.
  change (length mark_open - 1)%nat with (length [109; 97; 114; 107; 62]%nat).
  rewrite count_scan_skipped, count_scan_skip_chars by exact Hw.
  change (mark_close ++ t) with (60%nat :: [47; 109; 97; 114; 107; 62]%nat ++ t).
  rewrite count_scan_no_prefix by reflexivity.
  apply count_scan_skip_chars.
  cbn [In]. intros H. repeat destruct H as [H|H]; try discriminate. exact H.
Qed.

Lemma marks_counted_scan (w t : str) (prev : option char) (skip : nat) :
  w <> [] -> ~ In 60%nat w -> ~ In 60%nat t -> (skip <= length t)%nat ->
  (length (sub_scan w (mark_open ++ w ++ mark_close) prev skip t) + skip
   = length t
     + 13 * count_scan mark_open 0 (sub_scan w (mark_open ++ w ++ mark_close) prev skip t))%nat.
Proof.
  intros Hne Hw. revert prev skip. induction t as [|x t IH]; intros prev skip Ht Hs.
  - assert (skip = 0)%nat as -> by (simpl in Hs; lia).
    cbn [sub_scan]. rewrite match_at_nil by exact Hne. reflexivity.
  - assert (Hx : x <> 60%nat) by (intros ->; apply Ht; left; reflexivity).
    assert (Ht' : ~ In 60%nat t) by (intros H; apply Ht; right; exact H).
    cbn [sub_scan]. destruct skip as [|n].
    + destruct (match_at w prev (x :: t)) eqn:E.
      * apply match_at_length in E.
        destruct (length w) as [|n] eqn:En; [destruct w; [congruence|discriminate]|].
        specialize (IH (Some x) n Ht' ltac:(simpl in E; lia)).
        rewrite <- !app_assoc, count_scan_mark by exact Hw.
        rewrite !length_app, En. cbn [length mark_open mark_close] in *. lia.
      * specialize (IH (Some x) 0%nat Ht' ltac:(lia)).
        rewrite count_scan_skip_char by exact Hx. cbn [length]. lia.
    + specialize (IH (Some x) n Ht' ltac:(simpl in Hs; lia)). cbn [length]. lia.
Qed.

(** X11: in a sentence without the character [<], highlighting a word
    lengthens the sentence by 13 characters for every mark that
    [n_words_highlighted] counts: each counted mark is one replaced
    occurrence of the word. *)
Theorem marks_counted (w t : str) :
  w <> [] -> Forall (fun c => is_word c = true) w -> is_word 60%nat = false ->
  ~ In 60%nat t ->
  length (highlight_word w t)
  = (length t + 13 * n_words_highlighted (highlight_word w t))%nat.
Proof.
  intros Hne Hw H60 Ht.
  assert (Hw60 : ~ In 60%nat w).
  { intros Hin. rewrite Forall_forall in Hw. rewrite (Hw _ Hin) in H60. discriminate. }
  pose proof (marks_counted_scan w t None 0 Hne Hw60 Ht ltac:(lia)) as H.
  unfold highlight_word, n_words_highlighted. lia.
Qed.

End HighlightFacts.

(** *** The ASCII tables *)

Lemma ascii_is_word_iff (c : char) :
  ascii_is_word c = true
  <-> (48 <= c <= 57 \/ 65 <= c <= 90 \/ 97 <= c <= 122 \/ c = 95)%nat.
Proof.
  unfold ascii_is_word.
  rewrite !orb_true_iff, !andb_true_iff, !Nat.leb_le, Nat.eqb_eq. tauto.
Qed.

Lemma ascii_lower_cases (c : char) :
  ((65 <= c <= 90)%nat /\ ascii_lower c = (c + 32)%nat) \/
  (~ (65 <= c <= 90)%nat /\ ascii_lower c = c).
Proof.
  unfold ascii_lower.
  destruct ((65 <=? c) && (c <=? 90))%nat eqn:E.
  - left. apply andb_true_iff in E. rewrite !Nat.leb_le in E. split; [exact E|reflexivity].
  - right. apply andb_false_iff in E. rewrite !Nat.leb_gt in E. split; [lia|reflexivity].
Qed.

Lemma ascii_case_closed : case_closed ascii_is_word ascii_ieq.
Proof.
  intros c x Hc Hx. apply ascii_is_word_iff. apply ascii_is_word_iff in Hc.
  unfold ascii_ieq in Hx. apply Nat.eqb_eq in Hx.
  destruct (ascii_lower_cases c) as [[? Ec]|[? Ec]];
    destruct (ascii_lower_cases x) as [[? Ex]|[? Ex]]; lia.
Qed.

Lemma ascii_matches_word_chars (w : str) :
  Forall (fun c => ascii_is_word c = true) w ->
  matches_word_chars ascii_is_word ascii_ieq w.
Proof.
  intros Hw. unfold matches_word_chars.
  eapply Forall_impl; [|exact Hw].
  intros c Hc x Hx. exact (ascii_case_closed c x Hc Hx).
Qed.

(** ["Bad"] is highlighted as the vocabulary spells it. *)
Lemma highlight_word_token_witness :
  highlight_word ascii_is_word ascii_ieq word_bad text_Bad
  = if ieq_str ascii_ieq word_bad text_Bad
    then mark_open ++ word_bad ++ mark_close else text_Bad.
Proof.
  apply (highlight_word_token ascii_is_word ascii_ieq word_bad text_Bad).
  - discriminate.
  - repeat constructor.
  - repeat constructor.
Defined.

(** ["Bad movie"], split at the space. *)
Lemma highlight_separator_witness :
  highlight ascii_is_word ascii_ieq [word_bad; word_great] (text_Bad ++ space :: word_movie)
  = highlight ascii_is_word ascii_ieq [word_bad; word_great] text_Bad
    ++ space :: highlight ascii_is_word ascii_ieq [word_bad; word_great] word_movie.
Proof.
  apply (highlight_separator ascii_is_word ascii_ieq [word_bad; word_great]
           text_Bad word_movie space).
  - repeat (constructor; [split; [discriminate|split;
      [repeat constructor|apply ascii_matches_word_chars; repeat constructor]]|]).
    constructor.
  - reflexivity.
Defined.

(** ["Bad movie"] holds no [<]. *)
Lemma marks_counted_witness :
  length (highlight_word ascii_is_word ascii_ieq word_bad (text_Bad ++ space :: word_movie))
  = (length (text_Bad ++ space :: word_movie)
     + 13 * n_words_highlighted
              (highlight_word ascii_is_word ascii_ieq word_bad
                 (text_Bad ++ space :: word_movie)))%nat.
Proof.
  apply (marks_counted ascii_is_word ascii_ieq word_bad (text_Bad ++ space :: word_movie)).
  - discriminate.
  - repeat constructor.
  - reflexivity.
  - cbn [In app text_Bad word_movie space]. intros H.
    repeat destruct H as [H|H]; try discriminate. exact H.
Defined.

(** The highlighted ["Bad movie"], evaluated. *)
Example highlight_example :
  highlight ascii_is_word ascii_ieq [word_bad; word_great] (text_Bad ++ space :: word_movie)
  = mark_open ++ word_bad ++ mark_close ++ space :: word_movie.
Proof. vm_compute. reflexivity. Qed.

(** A top word spelled [mark] is also found inside the tags of the words
    highlighted before it. *)
Example highlight_inside_tags :
  highlight ascii_is_word ascii_ieq [word_bad; [109; 97; 114; 107]%nat] text_Bad
  = [60]%nat ++ mark_open ++ [109; 97; 114; 107]%nat ++ mark_close ++ [62]%nat
    ++ word_bad
    ++ [60; 47]%nat ++ mark_open ++ [109; 97; 114; 107]%nat ++ mark_close ++ [62]%nat.
Proof. vm_compute. reflexivity. Qed.

(** ** More on the top words and on errors *)

(** X12: the top [k] words are the first [k] of the top [k'] words
    whenever [0 < k <= k'], whatever the argsort. *)
Theorem top_k_prefix (argsort : vec -> list nat) (v : vec) (k k' : Z) :
  (0 < k <= k')%Z ->
  top_k argsort v k = firstn (Z.to_nat k) (top_k argsort v k').
Proof.
  intros Hk. rewrite !top_k_firstn, firstn_firstn. f_equal.
  unfold top_count.
  replace (0 <? k)%Z with true by (symmetry; apply Z.ltb_lt; lia).
  replace (0 <? k')%Z with true by (symmetry; apply Z.ltb_lt; lia).
  lia.
Qed.

(** The top two of the top three words. *)
Lemma top_k_prefix_witness :
  top_k insertion_argsort relevance_example 2
  = firstn (Z.to_nat 2) (top_k insertion_argsort relevance_example top_what).
Proof.
  apply (top_k_prefix insertion_argsort relevance_example 2 top_what).
  unfold top_what. lia.
Defined.

(** X13: on non-empty arrays, asking for the pattern of a class beyond
    the columns of the prediction matrix raises [IndexError], and a
    feature matrix whose number of documents differs from that of the
    prediction matrix raises [ValueError] in the product. *)
Theorem pattern_class_errors (k d c : nat) (P X : matrix) :
  rect k P -> rect d X -> P <> [] -> X <> [] -> (1 <= k)%nat -> (1 <= d)%nat ->
  ((k <= c)%nat -> pattern_class c P X = Raise IndexError) /\
  ((c < k)%nat -> length X <> length P -> pattern_class c P X = Raise ValueError).
Proof.
  intros HrP HrX HP HX Hk Hd.
  destruct (fit_transform_spec true k P HrP HP Hk) as (LN & HLN & HrLN & HlLN & _).
  destruct (fit_transform_spec false d X HrX HX Hd) as (DS & HDS & HrDS & HlDS & _).
  assert (HcLN : ncols LN = k).
  { apply rect_ncols; [exact HrLN|]. apply (length_nonempty _ P); assumption. }
  unfold pattern_class, labels_normalized, data_scaled.
  rewrite HLN, HDS. cbn [bind]. unfold getcol. rewrite HcLN.
  split.
  - intros Hc. apply Nat.ltb_ge in Hc. rewrite Hc. reflexivity.
  - intros Hc Hlen. apply Nat.ltb_lt in Hc. rewrite Hc. cbn [bind].
    unfold vecmat, nrows. rewrite column_length, HlLN, HlDS.
    replace (length P =? length X)%nat with false; [reflexivity|].
    symmetry. apply Nat.eqb_neq. congruence.
Qed.

(** Two predictions against three feature rows, and a third class. *)
Lemma pattern_class_errors_witness :
  ((2 <= 2)%nat ->
   pattern_class 2 predictions_example (features_example ++ features_example)
   = Raise IndexError) /\
  ((0 < 2)%nat ->
   length (features_example ++ features_example) <> length predictions_example ->
   pattern_class 0 predictions_example (features_example ++ features_example)
   = Raise ValueError).
Proof.
  split.
  - apply (pattern_class_errors 2 3 2 predictions_example
             (features_example ++ features_example));
      try (repeat constructor); try discriminate; lia.
  - apply (pattern_class_errors 2 3 0 predictions_example
             (features_example ++ features_example));
      try (repeat constructor); try discriminate; lia.
Defined.

(** ** File names of the corpus *)

Lemma split_on_nonempty (sep : char) (s : str) : split_on sep s <> [].
Proof.
  destruct s as [|x s]; cbn [split_on]; [discriminate|].
  destruct (x =? sep)%nat; [discriminate|].
  destruct (split_on sep s); discriminate.
Qed.

Lemma split_on_piece (sep : char) (a s : str) :
  ~ In sep a -> split_on sep (a ++ sep :: s) = a :: split_on sep s.
Proof.
  induction a as [|x a IH]; intros Ha; cbn [app split_on].
  - rewrite Nat.eqb_refl. reflexivity.
  - destruct (Nat.eqb_spec x sep) as [E|_]; [exfalso; apply Ha; left; exact E|].
    rewrite IH by (intros H; apply Ha; right; exact H). reflexivity.
Qed.

Lemma split_on_single (sep : char) (a : str) : ~ In sep a -> split_on sep a = [a].
Proof.
  induction a as [|x a IH]; intros Ha; cbn [split_on]; [reflexivity|].
  destruct (Nat.eqb_spec x sep) as [E|_]; [exfalso; apply Ha; left; exact E|].
  rewrite IH by (intros H; apply Ha; right; exact H). reflexivity.
Qed.

Lemma last_cons_nonempty (A : Type) (x : A) (l : list A) (d : A) :
  l <> [] -> last (x :: l) d = last l d.
Proof. intros H. destruct l; [congruence|reflexivity]. Qed.

Lemma base_name_after_slash (dir name : str) :
  ~ In slash name -> base_name (dir ++ slash :: name) = name.
Proof.
  intros Hn. unfold base_name. induction dir as [|x dir IH]; cbn [app split_on].
  - rewrite Nat.eqb_refl, (split_on_single slash name Hn). reflexivity.
  - destruct (x =? slash)%nat.
    + rewrite last_cons_nonempty by apply split_on_nonempty. exact IH.
    + destruct (split_on slash (dir ++ slash :: name)) as [|p ps] eqn:E.
      * exfalso. exact (split_on_nonempty _ _ E).
      * destruct ps as [|q ps]; [|exact IH].
        (* a single piece would hold the slash *)
        exfalso.
        assert (Hl : (2 <= length (split_on slash (dir ++ slash :: name)))%nat).
        { clear. induction dir as [|y dir IHd]; cbn [app split_on].
          - rewrite Nat.eqb_refl. cbn [length].
            pose proof (split_on_nonempty slash name) as H.
            destruct (split_on slash name); [congruence|simpl; lia].
          - destruct (y =? slash)%nat; [simpl; lia|].
            destruct (split_on slash (dir ++ slash :: name)) as [|p [|q ps]];
              simpl in *; lia. }
        rewrite E in Hl. simpl in Hl. lia.
Qed.

Section FileNameFacts.

Variable int : str -> result Z.

(** X14: for a file [dir/a_b.ext], whose name part [a] holds no slash
    and no underscore, whose part [b] holds no slash, underscore or
    dot, and whose extension holds no slash, the movie id is read from
    [a] and the rating from [b]. *)
Theorem file_name_fields (dir a b ext : str) :
  ~ In slash a -> ~ In underscore a ->
  ~ In slash b -> ~ In underscore b -> ~ In dot_char b ->
  ~ In slash ext ->
  let file := dir ++ slash :: a ++ underscore :: b ++ dot_char :: ext in
  movie_id int file = int a /\ rating int file = int b.
Proof.
  intros Ha1 Ha2 Hb1 Hb2 Hb3 He file.
  assert (Hbase : base_name file = a ++ underscore :: b ++ dot_char :: ext).
  { apply base_name_after_slash. intros H.
    apply in_app_or in H. destruct H as [H|[H|H]]; [auto|discriminate|].
    apply in_app_or in H. destruct H as [H|[H|H]]; [auto|discriminate|auto]. }
  unfold movie_id, rating. rewrite Hbase, (split_on_piece underscore a _ Ha2).
  split; [reflexivity|].
  cbn [nth_error].
  destruct (split_on underscore (b ++ dot_char :: ext)) as [|piece ps] eqn:E;
    [exfalso; exact (split_on_nonempty _ _ E)|].
  assert (Hpiece : exists r, piece = b ++ dot_char :: r).
  { clear - E Hb2. revert piece ps E.
    induction b as [|x b IH]; intros piece ps E; cbn [app split_on] in E.
    - change (dot_char =? underscore)%nat with false in E.
      destruct (split_on underscore ext) as [|p0 ps0]; injection E as <- _;
        eexists; reflexivity.
    - destruct (Nat.eqb_spec x underscore) as [Ex|_];
        [exfalso; apply Hb2; left; exact Ex|].
      destruct (split_on underscore (b ++ dot_char :: ext)) as [|p0 ps0] eqn:E0.
      + exfalso. exact (split_on_nonempty _ _ E0).
      + injection E as <- _.
        destruct (IH (fun H => Hb2 (or_intror H)) p0 ps0 eq_refl) as (r & ->).
        exists r. reflexivity. }
  destruct Hpiece as (r & ->).
  rewrite (split_on_piece dot_char b r Hb3). reflexivity.
Qed.

(** X15: a file whose base name holds no underscore yields no record.
    [int] is first applied to the whole base name for the movie id: its
    exception is the one raised, which is [ValueError] for a name with a
    dot such as [NN.txt] since [int] rejects a dot; only if [int]
    accepted the name would the missing second piece raise
    [IndexError]. *)
Theorem record_without_underscore (file : str) :
  ~ In underscore (base_name file) ->
  file_record int file
  = (_ <- int (base_name file) ;; Raise IndexError) /\
  ((forall s, In dot_char s -> int s = Raise ValueError) ->
 In dot_char (base_name file) -> file_record int file = Raise ValueError).
Proof.
  intros H.
  assert (E : file_record int file = (_ <- int (base_name file) ;; Raise IndexError)).
  { unfold file_record, movie_id, rating.
  rewrite (split_on_single underscore _ H). cbn [hd nth_error].
  destruct (int (base_name file)); reflexivity. }
  split; [exact E|].
  intros Hint Hdot. rewrite E, (Hint _ Hdot). reflexivity.
Qed.

End FileNameFacts.

(** The fields of ["aclImdb/train/pos/12_9.txt"]. *)
Lemma file_name_fields_witness :
  let file := [97; 99; 108; 73; 109; 100; 98; 47; 116; 114; 97; 105; 110; 47; 112; 111; 115]%nat
              ++ slash :: [49; 50]%nat ++ underscore :: [57]%nat
              ++ dot_char :: [116; 120; 116]%nat in
  movie_id decimal file = decimal [49; 50]%nat /\ rating decimal file = decimal [57]%nat.
Proof.
  apply (file_name_fields decimal
           [97; 99; 108; 73; 109; 100; 98; 47; 116; 114; 97; 105; 110; 47; 112; 111; 115]%nat
           [49; 50]%nat [57]%nat [116; 120; 116]%nat);
    cbn [In]; intros H; repeat destruct H as [H|H]; try discriminate; exact H.
Defined.

Lemma fold_left_raise (A : Type) (step : result Z -> A -> result Z) (e : exn) (l : list A) :
  (forall a, step (Raise e) a = Raise e) -> fold_left step l (Raise e) = Raise e.
Proof.
  intros Hstep. induction l as [|a l IH]; [reflexivity|].
  cbn [fold_left]. rewrite Hstep. exact IH.
Qed.

Lemma decimal_rejects (c : char) (s : str) :
  ((48 <=? c) && (c <=? 57))%nat = false -> In c s -> decimal s = Raise ValueError.
Proof.
  intros Hc Hin. unfold decimal. destruct s as [|x s]; [destruct Hin|].
  match goal with |- fold_left ?f _ _ = _ => set (step := f) end.
  assert (Hraise : forall l, fold_left step l (Raise ValueError) = Raise ValueError).
  { intros l. apply fold_left_raise. reflexivity. }
  assert (Hfold : forall l n, In c l -> fold_left step l (Ok n) = Raise ValueError).
  { induction l as [|y l IH]; intros n Hl; [destruct Hl|].
    cbn [fold_left]. unfold step at 2. cbn [bind].
    destruct Hl as [->|Hl].
    - rewrite Hc. apply Hraise.
    - destruct ((48 <=? y) && (y <=? 57))%nat; [apply IH; exact Hl|apply Hraise]. }
  apply Hfold. exact Hin.
Qed.

Lemma decimal_rejects_dot (s : str) : In dot_char s -> decimal s = Raise ValueError.
Proof. apply decimal_rejects. reflexivity. Qed.

(** ["aclImdb/train/pos/12.txt"] *)
Lemma record_without_underscore_witness :
  let file := [97; 99; 108; 73; 109; 100; 98; 47; 116; 114; 97; 105; 110; 47; 112; 111;
               115; 47; 49; 50; 46; 116; 120; 116]%nat in
  file_record decimal file = (_ <- decimal (base_name file) ;; Raise IndexError) /\
  ((forall s, In dot_char s -> decimal s = Raise ValueError) ->
   In dot_char (base_name file) -> file_record decimal file = Raise ValueError).
Proof.
  apply (record_without_underscore decimal).
  vm_compute. intros H. repeat destruct H as [H|H]; try discriminate; exact H.
Defined.

(** The unsigned decimal reader rejects a dot, and the file of the
    witness is rejected with [ValueError]. *)
Example record_without_underscore_example :
  file_record decimal
    [97; 99; 108; 73; 109; 100; 98; 47; 116; 114; 97; 105; 110; 47; 112; 111;
     115; 47; 49; 50; 46; 116; 120; 116]%nat
  = Raise ValueError.
Proof. vm_compute. reflexivity. Qed.

(** The example file, evaluated. *)
Example file_example_fields :
  movie_id decimal file_example = Ok 12%Z /\ rating decimal file_example = Ok 9%Z.
Proof. split; vm_compute; reflexivity. Qed.
